(** * CDN version updater: a shallow embedding of [update_html_versions.py]

    The script bumps the patch number of every versioned CDN asset reference
    found in a tree of HTML files.  This development embeds its functions
    ([increment_version], [update_cdn_versions], [process_html_file],
    [main]) and proves the properties that its specification states.

    Modelling conventions.
    - A Python [str] is a [list ascii].  The classes [\d] and [\w] are
      given on the ASCII characters, where they are the ten digits, and the
      letters, the digits and the underscore; the other values of [ascii]
      belong to neither.  Python's classes also hold the digits and letters
      of other scripts, which this model does not represent.
    - A Python [int] is a [nat]: unbounded, and never negative here.  The
      interpreter's configurable limit on the length of a decimal string
      given to [int] is not modelled.
    - A [dict] is a [gmap]; where the script iterates over one, the result
      does not depend on the order.  The closure [replace_version] mutates
      two [nonlocal] variables, which become an explicit state record.
    - Regular expressions are run by a small backtracking matcher with the
      greedy, leftmost semantics of Python's [re] for the operators that
      the two patterns of the script use.
    - Files, the outcome of the directory search, the error stream and the
      exit status form an explicit world; what the script prints on the
      standard output is left out. *)

From Stdlib Require Import Ascii String List Arith Lia Sorted.
From stdpp Require Import gmap strings list fin_maps.
Import ListNotations.

Local Open Scope list_scope.

(** ** Text and character classes *)

Abbreviation text := (list ascii).

(** A literal of the source, as text. *)
Definition str (s : string) : text := list_ascii_of_string s.

(** [\d] *)
Definition is_digit (c : ascii) : bool :=
  (48 <=? nat_of_ascii c) && (nat_of_ascii c <=? 57).

(** [\w]: letters, digits and the underscore. *)
Definition is_word (c : ascii) : bool :=
  let n := nat_of_ascii c in
  ((97 <=? n) && (n <=? 122)) || ((65 <=? n) && (n <=? 90))
  || is_digit c || Ascii.eqb c "_".

(** The bracket expression [[\w_.-]] of the file-name part. *)
Definition is_name_char (c : ascii) : bool :=
  is_word c || Ascii.eqb c "_" || Ascii.eqb c "." || Ascii.eqb c "-".

(** ** Integers and their decimal form *)

Definition digit_val (c : ascii) : nat := nat_of_ascii c - 48.

Definition digit_chr (d : nat) : ascii := ascii_of_nat (48 + d).

(** [int(s)] on a string of decimal digits. *)
Definition int (s : text) : nat :=
  fold_left (fun acc c => 10 * acc + digit_val c) s 0.

(** Decimal digits of [n], most significant first, in front of [acc]. *)
Fixpoint decimal_aux (fuel n : nat) (acc : text) : text :=
  match fuel with
  | 0 => acc
  | S fuel' =>
      let acc' := digit_chr (n mod 10) :: acc in
      if n / 10 =? 0 then acc' else decimal_aux fuel' (n / 10) acc'
  end.

(** [str(n)] for a non-negative integer. *)
Definition decimal (n : nat) : text := decimal_aux (S n) n [].

(** The format specification [02d]: decimal, zero-padded to width 2. *)
Definition format_02d (n : nat) : text :=
  let d := decimal n in
  repeat "0"%char (2 - length d) ++ d.

(** ** Regular expressions *)

(** The operators that occur in the script's patterns.  [Plus p] is [X+]
    for a one-character class [X], the only repetition used. *)
Inductive regex : Type :=
| Eps
| Chr (c : ascii)
| Cls (p : ascii -> bool)
| Seq (r1 r2 : regex)
| Alt (r1 r2 : regex)
| Plus (p : ascii -> bool)
| Grp (r : regex).

(** A literal string as a pattern. *)
Definition lit (s : string) : regex :=
  fold_right (fun c r => Seq (Chr c) r) Eps (str s).

(** Greedy [X+]: take one character, try to take more first, and only
    then hand the rest to the continuation. *)
Fixpoint plus_greedy {A} (p : ascii -> bool) (s : text)
    (k : text -> option A) : option A :=
  match s with
  | c :: s' =>
      if p c then
        match plus_greedy p s' k with
        | Some r => Some r
        | None => k s'
        end
      else None
  | [] => None
  end.

(** The backtracking matcher.  [g] are the groups captured so far, in the
    order their parentheses close (the patterns nest no groups, so this is
    Python's numbering); [k] is what remains to be matched. *)
Fixpoint exec {A} (r : regex) (s : text) (g : list text)
    (k : text -> list text -> option A) : option A :=
  match r with
  | Eps => k s g
  | Chr c =>
      match s with
      | x :: s' => if Ascii.eqb x c then k s' g else None
      | [] => None
      end
  | Cls p =>
      match s with
      | x :: s' => if p x then k s' g else None
      | [] => None
      end
  | Seq r1 r2 => exec r1 s g (fun s1 g1 => exec r2 s1 g1 k)
  | Alt r1 r2 =>
      match exec r1 s g k with
      | Some x => Some x
      | None => exec r2 s g k
      end
  | Plus p => plus_greedy p s (fun s' => k s' g)
  | Grp r1 =>
      exec r1 s g
        (fun s' g' => k s' (g' ++ [firstn (length s - length s') s]))
  end.

(** A match object: the captured groups and the text after the match. *)
Record match_obj : Type := MatchObj { m_groups : list text; m_rest : text }.

(** [match.group(i)] for [i >= 1]. *)
Definition group (m : match_obj) (i : nat) : text := nth (i - 1) (m_groups m) [].

(** [re.match(r, s)]: a match anchored at the start of [s]. *)
Definition re_match (r : regex) (s : text) : option match_obj :=
  exec r s [] (fun s' g => Some (MatchObj g s')).

(** ** Configuration *)

(** [CDN_URL_PATTERN]; the dots are escaped in the source, hence literal. *)
Definition CDN_URL : string :=
  "https://pub-85443b585f1e4411ab5cc976c4fb08ca.r2.dev/".

Definition CDN_URL_PATTERN : regex := lit CDN_URL.

Definition HTML_DIR : string := "src/0_html".

(** The three dot-separated digit groups [(\d+)\.(\d+)\.(\d+)]. *)
Definition TRIPLE_PATTERN : regex :=
  Seq (Grp (Plus is_digit))
    (Seq (Chr ".") (Seq (Grp (Plus is_digit))
      (Seq (Chr ".") (Grp (Plus is_digit))))).

(** [VERSION_PATTERN]: [\?v=(\d+)\.(\d+)\.(\d+)]. *)
Definition VERSION_PATTERN : regex := Seq (lit "?v=") TRIPLE_PATTERN.

(** ** The version incrementer *)

Definition increment_version (version_string : text) : text :=
  match re_match TRIPLE_PATTERN version_string with
  | None => version_string
  | Some m =>
      let major := group m 1 in
      let minor := group m 2 in
      let patch := group m 3 in
      let new_patch := int patch + 1 in
      major ++ str "." ++ minor ++ str "." ++ format_02d new_patch
  end.

(** ** The rewriter *)

(** The compiled pattern of [update_cdn_versions]:
    [(CDN_URL_PATTERN[\w_.-]+\.(?:js|css))VERSION_PATTERN]. *)
Definition ASSET_PATTERN : regex :=
  Seq (Grp (Seq CDN_URL_PATTERN
              (Seq (Plus is_name_char)
                 (Seq (Chr ".") (Alt (lit "js") (lit "css"))))))
      VERSION_PATTERN.

(** [s.split(sep)]: the segments between separators, [cur] being the
    segment under construction, reversed. *)
Fixpoint split_aux (sep : ascii) (cur : text) (s : text) : list text :=
  match s with
  | [] => [rev cur]
  | c :: s' =>
      if Ascii.eqb c sep then rev cur :: split_aux sep [] s'
      else split_aux sep (c :: cur) s'
  end.

Definition str_split (sep : ascii) (s : text) : list text := split_aux sep [] s.

(** The two [nonlocal] variables that [replace_version] updates. *)
Record rw_state : Type := RwState {
  change_count : nat;
  version_changes : gmap text (text * text)
}.

(** The closure handed to [pattern.sub]. *)
Definition replace_version (m : match_obj) (st : rw_state) : text * rw_state :=
  let url_base := group m 1 in
  let major := group m 2 in
  let minor := group m 3 in
  let patch := group m 4 in
  let old_version := major ++ str "." ++ minor ++ str "." ++ patch in
  let new_version := increment_version old_version in
  let filename := List.last (str_split "/" url_base) [] in
  let st' := RwState (change_count st + 1)
               (<[filename := (old_version, new_version)]> (version_changes st)) in
  (url_base ++ str "?v=" ++ new_version, st').

(** [pattern.sub(repl, s)]: scan from the left; where the pattern matches,
    emit the replacement and resume after the match, otherwise copy one
    character.  Each round consumes at least one character, so [length s]
    rounds are enough ([re_sub_fuel_enough]). *)
Fixpoint re_sub_fuel {S} (fuel : nat) (r : regex)
    (repl : match_obj -> S -> text * S) (s : text) (st : S) : text * S :=
  match fuel with
  | 0 => (s, st)
  | Datatypes.S fuel' =>
      match s with
      | [] => ([], st)
      | c :: s' =>
          match re_match r s with
          | Some m =>
              let '(t, st1) := repl m st in
              let '(out, st2) := re_sub_fuel fuel' r repl (m_rest m) st1 in
              (t ++ out, st2)
          | None =>
              let '(out, st1) := re_sub_fuel fuel' r repl s' st in
              (c :: out, st1)
          end
      end
  end.

Definition re_sub {S} (r : regex) (repl : match_obj -> S -> text * S)
    (s : text) (st : S) : text * S :=
  re_sub_fuel (length s) r repl s st.

Definition update_cdn_versions (content : text)
    : text * nat * gmap text (text * text) :=
  let '(updated_content, st) :=
    re_sub ASSET_PATTERN replace_version content (RwState 0 ∅) in
  (updated_content, change_count st, version_changes st).

(** ** The file processor and the driver *)

Abbreviation path := (list ascii).

(** A file: what reading it as UTF-8 returns ([None] when [open] or [read]
    raises) and whether it can be opened for writing. *)
Record file : Type := File { f_text : option text; f_writable : bool }.

(** The operations the script performs on its environment. *)
Inductive op : Type :=
| OpRead (p : path)
| OpWrite (p : path) (data : text)
| OpStderr (p : path).

(** The environment: the files, the outcome of looking for [HTML_DIR]
    ([None] when the directory does not exist, otherwise the sorted list
    that [find_html_files] returns), and the operations performed so far,
    oldest first. *)
Record world : Type := World {
  w_fs : gmap path file;
  w_listing : option (list path);
  w_log : list op
}.

Definition log (o : op) (w : world) : world :=
  World (w_fs w) (w_listing w) (w_log w ++ [o]).

(** [open(p, 'r').read()] *)
Definition read_file (p : path) (w : world) : option text * world :=
  (w_fs w !! p ≫= f_text, log (OpRead p) w).

(** [open(p, 'w').write(data)]: a full overwrite; [false] when it raises. *)
Definition write_file (p : path) (data : text) (w : world) : bool * world :=
  let w' := log (OpWrite p data) w in
  match w_fs w !! p with
  | Some (File _ false) => (false, w')
  | _ => (true, World (<[p := File (Some data) true]> (w_fs w)) (w_listing w) (w_log w'))
  end.

(** The [except Exception] handler of [process_html_file]. *)
Definition report_error (p : path) (w : world)
    : (bool * nat * gmap text (text * text)) * world :=
  ((false, 0, ∅), log (OpStderr p) w).

Definition process_html_file (file_path : path) (w : world)
    : (bool * nat * gmap text (text * text)) * world :=
  match read_file file_path w with
  | (None, w1) => report_error file_path w1
  | (Some content, w1) =>
      let '(updated_content, change_count, version_changes) :=
        update_cdn_versions content in
      if 0 <? change_count then
        match write_file file_path updated_content w1 with
        | (true, w2) => ((true, change_count, version_changes), w2)
        | (false, w2) => report_error file_path w2
        end
      else ((true, 0, ∅), w1)
  end.

(** The aggregates of [main]. *)
Record summary : Type := Summary {
  total_changes : nat;
  files_modified : nat;
  all_version_changes : gmap text (text * text)
}.

(** The merge loop of [main]: an entry is added only under a file name that
    the summary does not hold yet. *)
Definition merge_changes (all_changes version_changes : gmap text (text * text))
    : gmap text (text * text) :=
  map_fold
    (fun filename v acc =>
       match acc !! filename with
       | None => <[filename := v]> acc
       | Some _ => acc
       end)
    all_changes version_changes.

(** One round of the loop over [html_files]. *)
Definition main_step (acc : summary * world) (file_path : path)
    : summary * world :=
  let '(sm, w) := acc in
  let '((success, change_count, version_changes), w') :=
    process_html_file file_path w in
  if success && (0 <? change_count) then
    (Summary (total_changes sm + change_count) (files_modified sm + 1)
       (merge_changes (all_version_changes sm) version_changes), w')
  else (sm, w').

(** [main], from the test of [html_dir.exists()] on; the result carries the
    exit status ([sys.exit(1)] gives 1, returning gives 0). *)
Definition main (html_dir : path) (w : world) : nat * summary * world :=
  match w_listing w with
  | None => (1, Summary 0 0 ∅, log (OpStderr html_dir) w)
  | Some [] => (1, Summary 0 0 ∅, w)
  | Some html_files =>
      let '(sm, w') := fold_left main_step html_files (Summary 0 0 ∅, w) in
      (0, sm, w')
  end.


(** ** Finding the files and the project root *)

(** An absolute path as [pathlib] holds it: the names below the root
    directory, outermost first.  The root itself is the empty list. *)
Abbreviation fs_path := (list (list ascii)).

(** [str(p)] *)
Definition path_str (p : fs_path) : text :=
  match p with
  | [] => str "/"
  | _ => concat (map (fun name => "/"%char :: name) p)
  end.

(** [p.parent]; the root is its own parent. *)
Definition parent (p : fs_path) : fs_path := removelast p.

(** [p / rel] for a relative path given as a string. *)
Definition path_join (p : fs_path) (rel : string) : fs_path :=
  p ++ str_split "/" (str rel).

Definition HTML_EXTENSIONS : list string := [".html"].

(** [fnmatch] of a name against a pattern whose only special character is
    [*], which stands for any run of characters, the empty one included.
    The patterns built from [HTML_EXTENSIONS] are of this kind. *)
Fixpoint fnmatch (pattern name : text) : bool :=
  match pattern with
  | [] =>
      match name with
      | [] => true
      | _ :: _ => false
      end
  | c :: pattern' =>
      if Ascii.eqb c "*" then
        (fix star (n : text) : bool :=
           fnmatch pattern' n
           || match n with
              | [] => false
              | _ :: n' => star n'
              end) name
      else
        match name with
        | x :: name' => Ascii.eqb x c && fnmatch pattern' name'
        | [] => false
        end
  end.

(** [base_dir.rglob(pattern)]: of everything below [base_dir], files and
    directories alike, the entries whose name matches.  [entries] is what
    the walk meets, in the order it meets it. *)
Definition rglob (entries : list fs_path) (pattern : text) : list fs_path :=
  List.filter (fun p => fnmatch pattern (List.last p [])) entries.

(** The order of Python's sequences: the first difference decides, and a
    proper prefix comes first. *)
Fixpoint lex_ltb {A} (ltb eqb : A -> A -> bool) (a b : list A) : bool :=
  match a, b with
  | _, [] => false
  | [], _ :: _ => true
  | x :: a', y :: b' =>
      if ltb x y then true
      else if eqb x y then lex_ltb ltb eqb a' b'
      else false
  end.

Definition char_ltb (x y : ascii) : bool := nat_of_ascii x <? nat_of_ascii y.

(** [s < t] on strings. *)
Definition text_ltb : text -> text -> bool := lex_ltb char_ltb Ascii.eqb.

Definition text_eqb (s t : text) : bool := bool_decide (s = t).

(** [p < q] on paths: their tuples of names are compared. *)
Definition path_ltb : fs_path -> fs_path -> bool := lex_ltb text_ltb text_eqb.

(** [sorted(l)]: a stable sort that only asks [<].  Insertion, from the
    right, before the first element that is not smaller. *)
Fixpoint insert_sorted {A} (ltb : A -> A -> bool) (x : A) (l : list A) : list A :=
  match l with
  | [] => [x]
  | y :: l' => if ltb y x then y :: insert_sorted ltb x l' else x :: y :: l'
  end.

Definition sorted {A} (ltb : A -> A -> bool) (l : list A) : list A :=
  fold_right (insert_sorted ltb) [] l.

Definition find_html_files (entries : list fs_path) : list fs_path :=
  let html_files :=
    flat_map (fun ext => rglob entries ("*"%char :: str ext)) HTML_EXTENSIONS in
  sorted path_ltb html_files.

(** The root resolution of [main]: the top level that [git] reports
    ([None] when the call raises), else three levels above the directory of
    the script. *)
Definition project_root (git_toplevel : option fs_path) (script_file : fs_path)
    : fs_path :=
  match git_toplevel with
  | Some git_root => git_root
  | None =>
      let script_dir := parent script_file in
      parent (parent (parent script_dir))
  end.

Definition html_dir_of (git_toplevel : option fs_path) (script_file : fs_path)
    : fs_path :=
  path_join (project_root git_toplevel script_file) HTML_DIR.

(** The environment that [main] meets on a disk: [tree] is [None] when
    [html_dir] does not exist, otherwise what lies below it. *)
Definition world_on (files : gmap path file) (tree : option (list fs_path)) : world :=
  World files (option_map (fun entries => map path_str (find_html_files entries)) tree) [].

(** The script as run: resolve the root, then the rest of [main]. *)
Definition run_script (git_toplevel : option fs_path) (script_file : fs_path)
    (w : world) : nat * summary * world :=
  main (path_str (html_dir_of git_toplevel script_file)) w.
(** * Notions of the specification *)

(** ** Digit groups and the textbook semantics of patterns *)

(** [true] when the text starts with a character of class [p]. *)
Definition heads (p : ascii -> bool) (s : text) : bool :=
  match s with
  | c :: _ => p c
  | [] => false
  end.

(** A non-empty group of decimal digits. *)
Definition digit_group (s : text) : Prop :=
  s <> [] /\ Forall (fun c => is_digit c = true) s.

(** [Matches r w g g']: the pattern [r] matches exactly the word [w] and
    turns the captured groups [g] into [g']. *)
Inductive Matches : regex -> text -> list text -> list text -> Prop :=
| MEps g : Matches Eps [] g g
| MChr c g : Matches (Chr c) [c] g g
| MCls (p : ascii -> bool) c g : p c = true -> Matches (Cls p) [c] g g
| MSeq r1 r2 w1 w2 g g1 g2 :
    Matches r1 w1 g g1 -> Matches r2 w2 g1 g2 ->
    Matches (Seq r1 r2) (w1 ++ w2) g g2
| MAltL r1 r2 w g g' : Matches r1 w g g' -> Matches (Alt r1 r2) w g g'
| MAltR r1 r2 w g g' : Matches r2 w g g' -> Matches (Alt r1 r2) w g g'
| MPlus (p : ascii -> bool) w g :
    w <> [] -> Forall (fun c => p c = true) w -> Matches (Plus p) w g g
| MGrp r w g g' : Matches r w g g' -> Matches (Grp r) w g (g' ++ [w]).

(** ** Versions *)

(** MAJOR.MINOR.PATCH *)
Definition version_of (major minor patch : text) : text :=
  major ++ str "." ++ minor ++ str "." ++ patch.

(** The text starts with three dot-separated groups of digits. *)
Definition begins_with_triple (s : text) : Prop :=
  exists major minor patch rest,
    digit_group major /\ digit_group minor /\ digit_group patch
    /\ s = version_of major minor patch ++ rest.

(** The MAJOR.MINOR.PATCH format as the specification words it: the text
    is three dot-separated groups of digits. *)
Definition is_version_triple (s : text) : Prop :=
  exists major minor patch,
    digit_group major /\ digit_group minor /\ digit_group patch
    /\ s = version_of major minor patch.

(** ** Asset references *)

(** An asset reference cut into the parts that the pattern captures. *)
Record asset_ref : Type := AssetRef {
  a_base : text;
  a_major : text;
  a_minor : text;
  a_patch : text
}.

Definition old_version (a : asset_ref) : text :=
  version_of (a_major a) (a_minor a) (a_patch a).

(** The reference as it stands in the content. *)
Definition ref_text (a : asset_ref) : text :=
  a_base a ++ str "?v=" ++ old_version a.

Definition is_extension (ext : text) : Prop := ext = str ".js" \/ ext = str ".css".

(** What the pattern accepts: the CDN prefix, at least one file-name
    character, the extension, and a digit triple after [?v=]. *)
Definition qualifying (a : asset_ref) : Prop :=
  (exists stem ext,
     a_base a = str CDN_URL ++ stem ++ ext
     /\ stem <> [] /\ Forall (fun c => is_name_char c = true) stem
     /\ is_extension ext)
  /\ digit_group (a_major a) /\ digit_group (a_minor a) /\ digit_group (a_patch a).

(** The matching rule as the specification words it: the CDN prefix, then
    a file name of name characters that ends in [.js] or [.css], then
    [?v=] and a digit triple. *)
Definition qualifying_as_worded (a : asset_ref) : Prop :=
  (exists filename,
     a_base a = str CDN_URL ++ filename
     /\ Forall (fun c => is_name_char c = true) filename
     /\ exists stem ext, filename = stem ++ ext /\ is_extension ext)
  /\ digit_group (a_major a) /\ digit_group (a_minor a) /\ digit_group (a_patch a).

(** A qualifying reference starts at the head of [s]. *)
Definition occurs_at_head (s : text) : Prop :=
  exists a rest, qualifying a /\ s = ref_text a ++ rest.

(** ** Segmenting a content *)

(** [url_base.split('/')[-1]] *)
Definition filename_of (a : asset_ref) : text :=
  List.last (str_split "/" (a_base a)) [].

(** The version that [replace_version] writes for a reference. *)
Definition new_version (a : asset_ref) : text := increment_version (old_version a).

(** A content read from the left: characters that stay, and references. *)
Inductive segment : Type :=
| Keep (c : ascii)
| Ref (a : asset_ref).

Definition seg_src (sg : segment) : text :=
  match sg with
  | Keep c => [c]
  | Ref a => ref_text a
  end.

(** What stands in the updated content in place of a segment. *)
Definition seg_new (sg : segment) : text :=
  match sg with
  | Keep c => [c]
  | Ref a => a_base a ++ str "?v=" ++ new_version a
  end.

Definition src_text (l : list segment) : text := concat (map seg_src l).
Definition new_text (l : list segment) : text := concat (map seg_new l).

(** The references of a segmentation, in order. *)
Fixpoint refs (l : list segment) : list asset_ref :=
  match l with
  | [] => []
  | Keep _ :: l' => refs l'
  | Ref a :: l' => a :: refs l'
  end.

(** The entries that the references leave in the change map, one after
    the other. *)
Definition record_changes (rs : list asset_ref) (m : gmap text (text * text))
    : gmap text (text * text) :=
  fold_left (fun m a => <[filename_of a := (old_version a, new_version a)]> m) rs m.

(** The left-to-right, non-overlapping segmentation: a reference is cut
    wherever a qualifying one starts, with its patch group as long as the
    digits go; a character is kept only where none starts. *)
Inductive Scan : text -> list segment -> Prop :=
| ScanNil : Scan [] []
| ScanKeep c s l :
    ~ occurs_at_head (c :: s) -> Scan s l -> Scan (c :: s) (Keep c :: l)
| ScanRef a rest l :
    qualifying a -> heads is_digit rest = false -> Scan rest l ->
    Scan (ref_text a ++ rest) (Ref a :: l).

(** A qualifying reference starts somewhere in the content. *)
Definition occurs_somewhere (content : text) : Prop :=
  exists pre post, content = pre ++ post /\ occurs_at_head post.

(** The same, decided by trying the pattern at every position. *)
Fixpoint occursb (s : text) : bool :=
  match s with
  | [] => false
  | _ :: s' => bool_decide (is_Some (re_match ASSET_PATTERN s)) || occursb s'
  end.

(** A reference after one run: the patch group is the incremented number. *)
Definition bump (a : asset_ref) : asset_ref :=
  AssetRef (a_base a) (a_major a) (a_minor a) (format_02d (int (a_patch a) + 1)).

Definition bump_seg (sg : segment) : segment :=
  match sg with
  | Keep c => Keep c
  | Ref a => Ref (bump a)
  end.

(** ** Operations on the environment *)

(** The paths read and the writes made by a run of operations. *)
Fixpoint reads (ops : list op) : list path :=
  match ops with
  | [] => []
  | OpRead p :: r => p :: reads r
  | _ :: r => reads r
  end.

Fixpoint writes (ops : list op) : list (path * text) :=
  match ops with
  | [] => []
  | OpWrite p data :: r => (p, data) :: writes r
  | _ :: r => writes r
  end.

(** The write that the driver owes to a path: the updated text when the
    file can be read and the rewrite counts a change, none otherwise. *)
Definition due_write (w : world) (p : path) : list (path * text) :=
  match w_fs w !! p ≫= f_text with
  | Some content =>
      if 0 <? (update_cdn_versions content).1.2
      then [(p, (update_cdn_versions content).1.1)]
      else []
  | None => []
  end.

(** ** Sample inputs *)

Definition hero_page : text :=
  str "<script src='https://pub-85443b585f1e4411ab5cc976c4fb08ca.r2.dev/hero_video.js?v=1.1.27'></script>".

Definition hero_page_updated : text :=
  str "<script src='https://pub-85443b585f1e4411ab5cc976c4fb08ca.r2.dev/hero_video.js?v=1.1.28'></script>".

Definition hero_ref : asset_ref :=
  AssetRef (str "https://pub-85443b585f1e4411ab5cc976c4fb08ca.r2.dev/hero_video.js")
    (str "1") (str "1") (str "27").

Definition twice_page : text :=
  str "https://pub-85443b585f1e4411ab5cc976c4fb08ca.r2.dev/a.css?v=1.0.9 https://pub-85443b585f1e4411ab5cc976c4fb08ca.r2.dev/a.css?v=2.0.0".

Definition plain_page : text := str "<p>no assets here, v=1.2.3</p>".

Definition bare_extension : text :=
  str "https://pub-85443b585f1e4411ab5cc976c4fb08ca.r2.dev/.js?v=1.0.0".

Definition bare_extension_ref : asset_ref :=
  AssetRef (str "https://pub-85443b585f1e4411ab5cc976c4fb08ca.r2.dev/.js")
    (str "1") (str "0") (str "0").

Definition index_html : path := str "src/0_html/index.html".
Definition about_html : path := str "src/0_html/about.html".

(** A site of two pages: one with a reference, one unreadable. *)
Definition sample_world : world :=
  World (<[index_html := File (Some hero_page) true]>
           (<[about_html := File None true]> ∅))
        (Some [about_html; index_html]) [].

(** ** Notions for further properties *)

(** A character that cannot stand in an asset reference: neither a
    file-name character nor one of the other characters of the pattern. *)
Definition is_separator (c : ascii) : bool :=
  negb (is_name_char c) && negb (existsb (Ascii.eqb c) (str ":/?=")).

(** The content after [n] runs of the rewriter, each on the output of the
    one before. *)
Definition rerun (n : nat) (content : text) : text :=
  Nat.iter n (fun c => (update_cdn_versions c).1.1) content.

(** [needle] stands somewhere in [hay]. *)
Definition contains (needle hay : text) : Prop :=
  exists pre post, hay = pre ++ needle ++ post.

Fixpoint starts_with (needle s : text) : bool :=
  match needle, s with
  | [], _ => true
  | c :: needle', x :: s' => Ascii.eqb x c && starts_with needle' s'
  | _ :: _, [] => false
  end.

(** [needle in hay] *)
Fixpoint containsb (needle hay : text) : bool :=
  starts_with needle hay
  || match hay with
     | [] => false
     | _ :: hay' => containsb needle hay'
     end.

(** The change count that processing [p] reports in [w]: positive only
    for a completed write. *)
Definition reported_count (w : world) (p : path) : nat :=
  (process_html_file p w).1.1.2.


(** The name of a path ends in [.html]. *)
Definition html_name (p : fs_path) : Prop :=
  exists stem, List.last p [] = stem ++ str ".html".

(** The paths of a directory walk are made of proper names: not empty,
    and without a slash. *)
Definition proper_name (name : text) : Prop := name <> [] /\ ~ In "/"%char name.
(** What lies below a sample [src/0_html], in no particular order. *)
Definition sample_tree : list fs_path :=
  map (fun rel => map str ["site"; "src"; "0_html"] ++ map str rel)
    [["x.html"; "in.html"]; ["a-b"; "z.html"]; ["A.HTML"]; ["a"; "c.html"];
     [".html"]; ["q.htm"]; ["a"; "b"; "y.html"]; ["a.html"]; ["x.html"]].

Definition not_slash (c : ascii) : bool := negb (Ascii.eqb c "/").
(** * Properties *)

(** ** Characters and decimal numbers *)

(** A maximal run of class [p] can always be split off. *)
Lemma span_class (p : ascii -> bool) (s : text) :
  exists d r, s = d ++ r /\ Forall (fun c => p c = true) d /\ heads p r = false.
Proof.
  induction s as [|c s IH].
  - exists [], []. repeat split; constructor.
  - destruct (p c) eqn:Hc.
    + destruct IH as (d & r & -> & Hd & Hr).
      exists (c :: d), r. repeat split; [constructor; assumption | assumption].
    + exists [], (c :: s). repeat split; [constructor | exact Hc].
Qed.

Lemma digit_chr_val (d : nat) : d < 10 -> digit_val (digit_chr d) = d.
Proof.
  intros H. unfold digit_val, digit_chr.
  rewrite nat_ascii_embedding by lia. lia.
Qed.

Lemma digit_chr_is_digit (d : nat) : d < 10 -> is_digit (digit_chr d) = true.
Proof.
  intros H. unfold is_digit, digit_chr.
  rewrite nat_ascii_embedding by lia.
  apply andb_true_intro; split; apply Nat.leb_le; lia.
Qed.

Lemma int_snoc (s : text) (c : ascii) : int (s ++ [c]) = 10 * int s + digit_val c.
Proof. unfold int. rewrite fold_left_app. reflexivity. Qed.

Lemma decimal_aux_spec (fuel : nat) :
  forall n acc, n < fuel ->
  exists d, decimal_aux fuel n acc = d ++ acc /\ digit_group d /\ int d = n
            /\ (n < 10 -> length d = 1) /\ (10 <= n -> 2 <= length d).
Proof.
  induction fuel as [|fuel IH]; intros n acc Hn; [lia|].
  cbn [decimal_aux].
  assert (Hmod : n mod 10 < 10) by (apply Nat.mod_upper_bound; lia).
  assert (Hdiv : n = 10 * (n / 10) + n mod 10) by (apply Nat.div_mod_eq).
  destruct (Nat.eqb_spec (n / 10) 0) as [Hz|Hz].
  - exists [digit_chr (n mod 10)]. repeat split.
    + discriminate.
    + repeat constructor. now apply digit_chr_is_digit.
    + unfold int. cbn [fold_left]. rewrite digit_chr_val by assumption. lia.
    + intros Hge. lia.
  - destruct (IH (n / 10) (digit_chr (n mod 10) :: acc)) as (d & Hd & [Hne Hdig] & Hint & _ & _).
    { lia. }
    exists (d ++ [digit_chr (n mod 10)]). repeat split.
    + rewrite Hd, <- app_assoc. reflexivity.
    + destruct d; discriminate.
    + apply Forall_app; split; [assumption|].
      repeat constructor. now apply digit_chr_is_digit.
    + rewrite int_snoc, Hint, digit_chr_val by assumption. lia.
    + intros Hlt. lia.
    + intros _. rewrite length_app. cbn.
      destruct d; [congruence | cbn; lia].
Qed.

Lemma decimal_spec (n : nat) :
  digit_group (decimal n) /\ int (decimal n) = n
  /\ (n < 10 -> length (decimal n) = 1) /\ (10 <= n -> 2 <= length (decimal n)).
Proof.
  destruct (decimal_aux_spec (S n) n [] (Nat.lt_succ_diag_r n)) as (d & Hd & H).
  unfold decimal. rewrite Hd, app_nil_r. exact H.
Qed.

Lemma int_zero_cons (s : text) : int ("0"%char :: s) = int s.
Proof. reflexivity. Qed.

(** [format_02d] writes the number itself, in at least two digits: one
    zero in front of a single digit, nothing in front of a longer number. *)
Lemma format_02d_spec (n : nat) :
  digit_group (format_02d n) /\ int (format_02d n) = n
  /\ 2 <= length (format_02d n)
  /\ (n < 10 -> format_02d n = "0"%char :: decimal n)
  /\ (10 <= n -> format_02d n = decimal n).
Proof.
  destruct (decimal_spec n) as ([Hne Hdig] & Hint & H1 & H2).
  unfold format_02d. cbv zeta.
  destruct (Nat.lt_ge_cases n 10) as [Hlt|Hge].
  - rewrite (H1 Hlt). cbn [Nat.sub repeat app]. repeat split.
    + discriminate.
    + constructor; [reflexivity | assumption].
    + rewrite int_zero_cons. assumption.
    + cbn [length]. rewrite (H1 Hlt). lia.
    + intros; lia.
  - specialize (H2 Hge).
    replace (2 - length (decimal n)) with 0 by lia. cbn [repeat app].
    repeat split; try assumption. intros; lia.
Qed.

(** ** The matcher against the textbook semantics of patterns *)

Lemma plus_greedy_sound {A} (p : ascii -> bool) (k : text -> option A) :
  forall s x, plus_greedy p s k = Some x ->
  exists w s', s = w ++ s' /\ w <> [] /\ Forall (fun c => p c = true) w
               /\ k s' = Some x.
Proof.
  induction s as [|c s IH]; intros x H; cbn in H; [discriminate|].
  destruct (p c) eqn:Hc; [|discriminate].
  destruct (plus_greedy p s k) as [y|] eqn:Hrec.
  - injection H as ->.
    destruct (IH x eq_refl) as (w & s' & -> & _ & Hw & Hk).
    exists (c :: w), s'. repeat split; [discriminate | constructor; assumption | assumption].
  - exists [c], s. repeat split; [discriminate | repeat constructor; assumption | assumption].
Qed.

(** Whatever the matcher accepts is a match of the pattern, followed by
    a text that the continuation accepts. *)
Lemma exec_sound {A} (r : regex) :
  forall s g (k : text -> list text -> option A) x,
  exec r s g k = Some x ->
  exists w s' g', s = w ++ s' /\ Matches r w g g' /\ k s' g' = Some x.
Proof.
  induction r as [|c|p|r1 IH1 r2 IH2|r1 IH1 r2 IH2|p|r IH]; intros s g k x H; cbn in H.
  - exists [], s, g. repeat split; [constructor | assumption].
  - destruct s as [|a s]; [discriminate|].
    destruct (Ascii.eqb_spec a c) as [->|]; [|discriminate].
    exists [c], s, g. repeat split; [constructor | assumption].
  - destruct s as [|a s]; [discriminate|].
    destruct (p a) eqn:Hp; [|discriminate].
    exists [a], s, g. repeat split; [constructor; assumption | assumption].
  - destruct (IH1 _ _ _ _ H) as (w1 & s1 & g1 & -> & M1 & H1).
    destruct (IH2 _ _ _ _ H1) as (w2 & s2 & g2 & -> & M2 & H2).
    exists (w1 ++ w2), s2, g2. rewrite <- app_assoc.
    repeat split; [econstructor; eassumption | assumption].
  - destruct (exec r1 s g k) as [y|] eqn:E1.
    + injection H as ->.
      destruct (IH1 _ _ _ _ E1) as (w & s' & g' & -> & M & Hk).
      exists w, s', g'. repeat split; [apply MAltL; assumption | assumption].
    + destruct (IH2 _ _ _ _ H) as (w & s' & g' & -> & M & Hk).
      exists w, s', g'. repeat split; [apply MAltR; assumption | assumption].
  - destruct (plus_greedy_sound _ _ _ _ H) as (w & s' & -> & Hne & Hw & Hk).
    exists w, s', g. repeat split; [constructor; assumption | assumption].
  - destruct (IH _ _ _ _ H) as (w & s' & g' & -> & M & Hk).
    exists w, s', (g' ++ [w]). repeat split; [constructor; assumption|].
    rewrite length_app, Nat.add_sub in Hk.
    rewrite firstn_app, Nat.sub_diag, firstn_all in Hk. cbn in Hk.
    rewrite app_nil_r in Hk. exact Hk.
Qed.

Lemma firstn_consumed (w s : text) : firstn (length (w ++ s) - length s) (w ++ s) = w.
Proof.
  rewrite length_app, Nat.add_sub, firstn_app, Nat.sub_diag, firstn_all.
  cbn. apply app_nil_r.
Qed.

Lemma plus_greedy_stuck {A} (p : ascii -> bool) (k : text -> option A) (rest : text) :
  heads p rest = false ->
  forall mid,
  (forall a t, mid = a ++ t -> a <> [] -> k (t ++ rest) = None) ->
  Forall (fun c => p c = true) mid ->
  plus_greedy p (mid ++ rest) k = None.
Proof.
  intros Hrest. induction mid as [|c mid IH]; intros Hk Hmid.
  - cbn. destruct rest as [|c rest]; [reflexivity|]. cbn in Hrest.
    cbn. rewrite Hrest. reflexivity.
  - inversion Hmid as [|? ? Hc Hmid']; subst. cbn. rewrite Hc.
    rewrite IH; [|intros a t -> Ha; apply (Hk (c :: a) t); [reflexivity | discriminate] | assumption].
    apply (Hk [c] mid); [reflexivity | discriminate].
Qed.

(** Greedy repetition gives back characters: after the run [run ++ mid]
    the first continuation that succeeds, going backwards, is the one
    that starts at [mid]. *)
Lemma plus_greedy_backtrack {A} (p : ascii -> bool) (k : text -> option A)
    (mid rest : text) (x : A) :
  heads p rest = false ->
  (forall a t, mid = a ++ t -> a <> [] -> k (t ++ rest) = None) ->
  Forall (fun c => p c = true) mid ->
  k (mid ++ rest) = Some x ->
  forall run, run <> [] -> Forall (fun c => p c = true) run ->
  plus_greedy p (run ++ mid ++ rest) k = Some x.
Proof.
  intros Hrest Hk Hmid Hx. induction run as [|c run IH]; intros Hne Hrun; [congruence|].
  inversion Hrun as [|? ? Hc Hrun']; subst. cbn. rewrite Hc.
  destruct run as [|c' run].
  - cbn [app]. rewrite (plus_greedy_stuck p k rest Hrest mid Hk Hmid). exact Hx.
  - rewrite IH; [reflexivity | discriminate | assumption].
Qed.

Lemma exec_seq {A} (r1 r2 : regex) (s : text) (g : list text)
    (k : text -> list text -> option A) :
  exec (Seq r1 r2) s g k = exec r1 s g (fun s1 g1 => exec r2 s1 g1 k).
Proof. reflexivity. Qed.

Lemma exec_chr {A} (c : ascii) (s : text) (g : list text)
    (k : text -> list text -> option A) :
  exec (Chr c) (str (String c EmptyString) ++ s) g k = k s g.
Proof. cbn. rewrite Ascii.eqb_refl. reflexivity. Qed.

Lemma exec_lit {A} (l : string) (s : text) (g : list text)
    (k : text -> list text -> option A) :
  exec (lit l) (str l ++ s) g k = k s g.
Proof.
  unfold lit. induction (str l) as [|c t IH]; cbn; [reflexivity|].
  rewrite Ascii.eqb_refl. exact IH.
Qed.

Lemma Matches_lit (l : string) (w : text) (g g' : list text) :
  Matches (lit l) w g g' -> w = str l /\ g' = g.
Proof.
  unfold lit. revert w. induction (str l) as [|c t IH]; intros w H; cbn in H.
  - inversion H; subst. split; reflexivity.
  - inversion H as [| | |? ? w1 w2 ? g1 ? H1 H2| | | |]; subst.
    inversion H1; subst. destruct (IH _ H2) as [-> ->]. split; reflexivity.
Qed.

Lemma exec_group_plus {A} (p : ascii -> bool) (w s : text) (g : list text)
    (k : text -> list text -> option A) (x : A) :
  w <> [] -> Forall (fun c => p c = true) w -> heads p s = false ->
  k s (g ++ [w]) = Some x ->
  exec (Grp (Plus p)) (w ++ s) g k = Some x.
Proof.
  intros Hne Hw Hs Hk. cbn [exec].
  rewrite <- (app_nil_l s) at 1.
  apply plus_greedy_backtrack; try assumption.
  - intros a t Hat Ha. destruct a; [congruence | discriminate].
  - constructor.
  - cbn [app]. rewrite firstn_consumed. exact Hk.
Qed.

Lemma Matches_group_plus (p : ascii -> bool) (w : text) (g g' : list text) :
  Matches (Grp (Plus p)) w g g' ->
  g' = g ++ [w] /\ w <> [] /\ Forall (fun c => p c = true) w.
Proof.
  intros H. inversion H as [| | | | | | |? ? ? ? H1]; subst.
  inversion H1; subst. repeat split; assumption.
Qed.

(** ** What the two patterns match *)

(** On a digit triple that no digit follows, the matcher captures the
    three groups and stops right after the third. *)
Lemma exec_triple {A} (major minor patch rest : text) (g : list text)
    (k : text -> list text -> option A) (x : A) :
  digit_group major -> digit_group minor -> digit_group patch ->
  heads is_digit rest = false ->
  k rest (g ++ [major; minor; patch]) = Some x ->
  exec TRIPLE_PATTERN (version_of major minor patch ++ rest) g k = Some x.
Proof.
  intros [HM1 HM2] [Hm1 Hm2] [Hp1 Hp2] Hrest Hk.
  unfold TRIPLE_PATTERN, version_of. repeat rewrite <- app_assoc.
  rewrite exec_seq.
  apply exec_group_plus; [assumption | assumption | reflexivity |].
  rewrite exec_seq, exec_chr, exec_seq.
  apply exec_group_plus; [assumption | assumption | reflexivity |].
  rewrite exec_seq, exec_chr.
  apply exec_group_plus; [assumption | assumption | assumption |].
  repeat rewrite <- app_assoc. exact Hk.
Qed.

Lemma Matches_triple (w : text) (g g' : list text) :
  Matches TRIPLE_PATTERN w g g' ->
  exists major minor patch,
    w = version_of major minor patch /\ g' = g ++ [major; minor; patch]
    /\ digit_group major /\ digit_group minor /\ digit_group patch.
Proof.
  unfold TRIPLE_PATTERN. intros H.
  inversion H as [| | |? ? w1 r1 ? g1 ? H1 H2| | | |]; subst; clear H.
  inversion H2 as [| | |? ? w2 r2 ? g2 ? H3 H4| | | |]; subst; clear H2.
  inversion H4 as [| | |? ? w3 r3 ? g3 ? H5 H6| | | |]; subst; clear H4.
  inversion H6 as [| | |? ? w4 r4 ? g4 ? H7 H8| | | |]; subst; clear H6.
  inversion H3; subst. inversion H7; subst.
  apply Matches_group_plus in H1 as (-> & ? & ?).
  apply Matches_group_plus in H5 as (-> & ? & ?).
  apply Matches_group_plus in H8 as (-> & ? & ?).
  exists w1, w3, r4. repeat split; try assumption.
  repeat rewrite <- app_assoc. reflexivity.
Qed.

Lemma digit_group_app (d e : text) :
  digit_group d -> Forall (fun c => is_digit c = true) e -> digit_group (d ++ e).
Proof.
  intros [Hne Hd] He. split.
  - destruct d; [congruence | discriminate].
  - apply Forall_app; split; assumption.
Qed.

(** The third group can be taken as long as the digits go. *)
Lemma triple_maximal (s : text) :
  begins_with_triple s ->
  exists major minor patch rest,
    digit_group major /\ digit_group minor /\ digit_group patch
    /\ heads is_digit rest = false
    /\ s = version_of major minor patch ++ rest.
Proof.
  intros (major & minor & patch & rest & HM & Hm & Hp & ->).
  destruct (span_class is_digit rest) as (d & r & -> & Hd & Hr).
  exists major, minor, (patch ++ d), r.
  refine (conj HM (conj Hm (conj _ (conj Hr _)))).
  - apply digit_group_app; assumption.
  - unfold version_of. repeat rewrite <- app_assoc. reflexivity.
Qed.

Lemma re_match_triple (major minor patch rest : text) :
  digit_group major -> digit_group minor -> digit_group patch ->
  heads is_digit rest = false ->
  re_match TRIPLE_PATTERN (version_of major minor patch ++ rest)
  = Some (MatchObj [major; minor; patch] rest).
Proof.
  intros HM Hm Hp Hrest. unfold re_match.
  apply exec_triple; try assumption. reflexivity.
Qed.

Lemma re_match_triple_some (s : text) (m : match_obj) :
  re_match TRIPLE_PATTERN s = Some m -> begins_with_triple s.
Proof.
  intros H. apply exec_sound in H as (w & s' & g' & -> & HM & _).
  apply Matches_triple in HM as (major & minor & patch & -> & _ & ? & ? & ?).
  exists major, minor, patch, s'. auto.
Qed.

Lemma re_match_triple_none (s : text) :
  re_match TRIPLE_PATTERN s = None <-> ~ begins_with_triple s.
Proof.
  split.
  - intros Hnone Hb.
    apply triple_maximal in Hb as (major & minor & patch & rest & HM & Hm & Hp & Hr & ->).
    rewrite re_match_triple in Hnone by assumption. discriminate.
  - intros Hn. destruct (re_match TRIPLE_PATTERN s) as [m|] eqn:E; [|reflexivity].
    exfalso. apply Hn. eapply re_match_triple_some; eassumption.
Qed.

(** ** [increment_version] *)

(** C1. On every text that begins with a MAJOR.MINOR.PATCH triple of digit
    groups, [increment_version] returns the major and minor groups as they
    were written, followed by the patch number plus one, written in decimal
    and padded with a zero to two digits when it has only one; longer
    numbers are written in full.  The patch group is the whole run of
    digits after the second dot. *)
Theorem increment_version_bumps_patch (s : text) :
  begins_with_triple s ->
  (exists major minor patch rest,
     digit_group major /\ digit_group minor /\ digit_group patch
     /\ heads is_digit rest = false /\ s = version_of major minor patch ++ rest)
  /\
  (forall major minor patch rest,
     digit_group major -> digit_group minor -> digit_group patch ->
     heads is_digit rest = false -> s = version_of major minor patch ++ rest ->
     let new_patch := format_02d (int patch + 1) in
     increment_version s = version_of major minor new_patch
     /\ digit_group new_patch
     /\ int new_patch = int patch + 1
     /\ 2 <= length new_patch
     /\ (int patch + 1 < 10 -> new_patch = "0"%char :: decimal (int patch + 1))
     /\ (10 <= int patch + 1 -> new_patch = decimal (int patch + 1))).
Proof.
  intros Hb. split; [apply triple_maximal; exact Hb|].
  intros major minor patch rest HM Hm Hp Hr -> new_patch.
  destruct (format_02d_spec (int patch + 1)) as (Hg & Hint & Hlen & Hpad & Hfull).
  refine (conj _ (conj Hg (conj Hint (conj Hlen (conj Hpad Hfull))))).
  unfold increment_version. rewrite re_match_triple by assumption.
  reflexivity.
Qed.

(** C3 (as amended). A text that does not begin with a MAJOR.MINOR.PATCH
    triple, three dot-separated groups of digits at its start, is returned
    unchanged.  No input makes [increment_version] fail: it is a total
    function. *)
Theorem increment_version_unparseable (s : text) :
  ~ begins_with_triple s -> increment_version s = s.
Proof.
  intros Hn. unfold increment_version.
  apply re_match_triple_none in Hn. rewrite Hn. reflexivity.
Qed.

Lemma exec_grp {A} (r : regex) (s : text) (g : list text)
    (k : text -> list text -> option A) :
  exec (Grp r) s g k
  = exec r s g (fun s' g' => k s' (g' ++ [firstn (length s - length s') s])).
Proof. reflexivity. Qed.

Lemma exec_name_ext {A} (ext tail : text) (g : list text)
    (k : text -> list text -> option A) (x : A) :
  is_extension ext -> heads is_name_char tail = false ->
  k tail g = Some x ->
  forall stem, stem <> [] -> Forall (fun c => is_name_char c = true) stem ->
  exec (Seq (Plus is_name_char) (Seq (Chr ".") (Alt (lit "js") (lit "css"))))
    (stem ++ ext ++ tail) g k = Some x.
Proof.
  intros Hext Htail Hk stem Hne Hstem.
  rewrite exec_seq. cbn [exec].
  assert (Hdot : forall g', match tail with [] => None | c :: s' => if Ascii.eqb c "." then @exec A (Alt (lit "js") (lit "css")) s' g' k else None end = None).
  { intros g'. destruct tail as [|c tail]; [reflexivity|].
    destruct (Ascii.eqb_spec c "."); [subst; discriminate | reflexivity]. }
  destruct Hext as [-> | ->].
  - apply plus_greedy_backtrack; try assumption.
    + intros b t Hbt Hb.
      destruct b as [|b1 [|b2 [|b3 [|b4 b]]]]; try congruence;
        cbn in Hbt; injection Hbt; intros; subst; try reflexivity.
      * apply Hdot.
      * destruct b; discriminate.
    + repeat constructor.
    + cbn. rewrite Hk. reflexivity.
  - apply plus_greedy_backtrack; try assumption.
    + intros b t Hbt Hb.
      destruct b as [|b1 [|b2 [|b3 [|b4 [|b5 b]]]]]; try congruence;
        cbn in Hbt; injection Hbt; intros; subst; try reflexivity.
      * apply Hdot.
      * destruct b; discriminate.
    + repeat constructor.
Qed.

Lemma exec_asset {A} (a : asset_ref) (rest : text) (g : list text)
    (k : text -> list text -> option A) (x : A) :
  qualifying a -> heads is_digit rest = false ->
  k rest (g ++ [a_base a; a_major a; a_minor a; a_patch a]) = Some x ->
  exec ASSET_PATTERN (ref_text a ++ rest) g k = Some x.
Proof.
  intros ((stem & ext & Hbase & Hne & Hstem & Hext) & HM & Hm & Hp) Hrest Hk.
  unfold ASSET_PATTERN, ref_text, CDN_URL_PATTERN. rewrite Hbase.
  repeat rewrite <- app_assoc.
  rewrite exec_seq, exec_grp, exec_seq, exec_lit.
  apply exec_name_ext; try assumption; [reflexivity|].
  replace (str CDN_URL ++ stem ++ ext ++ str "?v=" ++ old_version a ++ rest)
    with ((str CDN_URL ++ stem ++ ext) ++ str "?v=" ++ old_version a ++ rest)
    by (repeat rewrite <- app_assoc; reflexivity).
  rewrite firstn_consumed.
  unfold VERSION_PATTERN. rewrite exec_seq, exec_lit.
  apply exec_triple; try assumption.
  rewrite <- app_assoc. cbn [app]. rewrite <- Hbase. exact Hk.
Qed.

Lemma Matches_asset (w : text) (g g' : list text) :
  Matches ASSET_PATTERN w g g' ->
  exists a, qualifying a /\ w = ref_text a
            /\ g' = g ++ [a_base a; a_major a; a_minor a; a_patch a].
Proof.
  unfold ASSET_PATTERN, VERSION_PATTERN, CDN_URL_PATTERN. intros H.
  inversion H as [| | |? ? w1 w2 ? g1 ? H1 H2| | | |]; subst; clear H.
  inversion H2 as [| | |? ? w3 w4 ? g2 ? H3 H4| | | |]; subst; clear H2.
  apply Matches_lit in H3 as [-> ->].
  apply Matches_triple in H4 as (major & minor & patch & -> & -> & HM & Hm & Hp).
  inversion H1 as [| | | | | | |? ? ? g3 H5]; subst; clear H1.
  inversion H5 as [| | |? ? w5 w6 ? g4 ? H6 H7| | | |]; subst; clear H5.
  apply Matches_lit in H6 as [-> ->].
  inversion H7 as [| | |? ? w7 w8 ? g5 ? H8 H9| | | |]; subst; clear H7.
  inversion H8; subst; clear H8.
  inversion H9 as [| | |? ? w9 w10 ? g6 ? H10 H11| | | |]; subst; clear H9.
  inversion H10; subst; clear H10.
  assert (Hext : is_extension ("."%char :: w10) /\ g3 = g6).
  { inversion H11 as [| | | |? ? ? ? ? HL|? ? ? ? ? HR| |]; subst;
      [apply Matches_lit in HL as [-> ->] | apply Matches_lit in HR as [-> ->]];
      split; [left | | right |]; reflexivity. }
  destruct Hext as [Hext ->].
  exists (AssetRef (str CDN_URL ++ w7 ++ "."%char :: w10) major minor patch).
  split; [|split].
  - split; [exists w7, ("."%char :: w10); auto | auto].
  - unfold ref_text, old_version. cbn [a_base a_major a_minor a_patch].
    repeat rewrite <- app_assoc. reflexivity.
  - cbn [a_base a_major a_minor a_patch].
    repeat rewrite <- app_assoc. reflexivity.
Qed.

(** The patch group of a reference can be taken as long as the digits go. *)
Lemma asset_maximal (s : text) :
  occurs_at_head s ->
  exists a rest, qualifying a /\ heads is_digit rest = false /\ s = ref_text a ++ rest.
Proof.
  intros ([base major minor patch] & rest & (Hb & HM & Hm & Hp) & ->).
  cbn [a_base a_major a_minor a_patch] in *.
  destruct (span_class is_digit rest) as (d & r & -> & Hd & Hr).
  exists (AssetRef base major minor (patch ++ d)), r.
  split; [|split; [exact Hr|]].
  - refine (conj Hb (conj HM (conj Hm _))). apply digit_group_app; assumption.
  - unfold ref_text, old_version, version_of. cbn [a_base a_major a_minor a_patch].
    repeat rewrite <- app_assoc. reflexivity.
Qed.

Lemma re_match_asset (a : asset_ref) (rest : text) :
  qualifying a -> heads is_digit rest = false ->
  re_match ASSET_PATTERN (ref_text a ++ rest)
  = Some (MatchObj [a_base a; a_major a; a_minor a; a_patch a] rest).
Proof.
  intros Hq Hrest. unfold re_match. apply exec_asset; try assumption. reflexivity.
Qed.

Lemma re_match_asset_some (s : text) (m : match_obj) :
  re_match ASSET_PATTERN s = Some m ->
  exists a, qualifying a /\ heads is_digit (m_rest m) = false
            /\ s = ref_text a ++ m_rest m
            /\ m_groups m = [a_base a; a_major a; a_minor a; a_patch a].
Proof.
  intros H.
  assert (Hocc : occurs_at_head s).
  { apply exec_sound in H as (w & s' & g' & -> & HM & _).
    apply Matches_asset in HM as (a & Hq & -> & _). exists a, s'. auto. }
  apply asset_maximal in Hocc as (a & rest & Hq & Hr & ->).
  rewrite re_match_asset in H by assumption. injection H as <-.
  exists a. auto.
Qed.

Lemma re_match_asset_none (s : text) :
  re_match ASSET_PATTERN s = None <-> ~ occurs_at_head s.
Proof.
  split.
  - intros Hnone Hocc.
    apply asset_maximal in Hocc as (a & rest & Hq & Hr & ->).
    rewrite re_match_asset in Hnone by assumption. discriminate.
  - intros Hn. destruct (re_match ASSET_PATTERN s) as [m|] eqn:E; [|reflexivity].
    exfalso. apply Hn.
    apply re_match_asset_some in E as (a & Hq & _ & -> & _). exists a, (m_rest m). auto.
Qed.

(** ** The scan of [re_sub] *)

Lemma ref_text_nonempty (a : asset_ref) (rest : text) :
  qualifying a -> length rest < length (ref_text a ++ rest).
Proof.
  intros ((stem & ext & Hb & _) & _). unfold ref_text. rewrite Hb.
  repeat rewrite length_app. cbn. lia.
Qed.

Lemma replace_version_ref (a : asset_ref) (rest : text) (st : rw_state) :
  replace_version (MatchObj [a_base a; a_major a; a_minor a; a_patch a] rest) st
  = (seg_new (Ref a),
     RwState (change_count st + 1)
       (<[filename_of a := (old_version a, new_version a)]> (version_changes st))).
Proof. reflexivity. Qed.

(** [re_sub] follows the segmentation, and the fuel it is given lasts. *)
Lemma re_sub_fuel_scan (fuel : nat) :
  forall s st, length s <= fuel ->
  exists l, Scan s l
    /\ re_sub_fuel fuel ASSET_PATTERN replace_version s st
       = (new_text l,
          RwState (change_count st + length (refs l))
            (record_changes (refs l) (version_changes st))).
Proof.
  induction fuel as [|fuel IH]; intros s st Hlen.
  - destruct s; [|cbn in Hlen; lia]. exists []. split; [constructor|].
    cbn. destruct st. cbn. rewrite Nat.add_0_r. reflexivity.
  - destruct s as [|c s].
    { exists []. split; [constructor|].
      cbn. destruct st. cbn. rewrite Nat.add_0_r. reflexivity. }
    cbn [re_sub_fuel].
    destruct (re_match ASSET_PATTERN (c :: s)) as [m|] eqn:E.
    + destruct (re_match_asset_some _ _ E) as (a & Hq & Hr & Hs & Hg).
      destruct m as [g rest]. cbn [m_rest m_groups] in *. subst g.
      rewrite replace_version_ref.
      assert (Hshort : length rest <= fuel).
      { pose proof (ref_text_nonempty a rest Hq) as Hlt. rewrite <- Hs in Hlt.
        cbn [length] in *. lia. }
      destruct (IH rest (RwState (change_count st + 1)
         (<[filename_of a := (old_version a, new_version a)]> (version_changes st))) Hshort)
        as (l & HS & ->).
      exists (Ref a :: l). split.
      * rewrite Hs. constructor; assumption.
      * cbn [refs length record_changes fold_left change_count version_changes].
        unfold new_text. cbn [map concat].
        f_equal. f_equal. lia.
    + apply re_match_asset_none in E.
      destruct (IH s st) as (l & HS & ->); [cbn in Hlen; lia|].
      exists (Keep c :: l). split; [constructor; assumption|].
      reflexivity.
Qed.

Lemma update_cdn_versions_scan (content : text) :
  exists l, Scan content l
    /\ update_cdn_versions content
       = (new_text l, length (refs l), record_changes (refs l) ∅).
Proof.
  destruct (re_sub_fuel_scan (length content) content (RwState 0 ∅) (Nat.le_refl _))
    as (l & HS & E).
  exists l. split; [assumption|].
  unfold update_cdn_versions, re_sub. rewrite E. reflexivity.
Qed.

Lemma Scan_src (s : text) (l : list segment) : Scan s l -> src_text l = s.
Proof.
  induction 1 as [|c s l Hn HS IH|a rest l Hq Hr HS IH]; unfold src_text in *; cbn.
  - reflexivity.
  - rewrite IH. reflexivity.
  - rewrite IH. reflexivity.
Qed.

Lemma Scan_functional (s : text) (l l' : list segment) :
  Scan s l -> Scan s l' -> l = l'.
Proof.
  intros H. revert l'.
  induction H as [|c s l Hn HS IH|a rest l Hq Hr HS IH]; intros l' H'.
  - inversion H' as [| |a' rest' ? Hq' ? ? E]; subst; [reflexivity|].
    pose proof (ref_text_nonempty a' rest' Hq') as Hlt. rewrite E in Hlt. cbn in Hlt. lia.
  - inversion H' as [|? ? l1 ? HS1|a' rest' ? Hq' ? ? E]; subst.
    + f_equal. apply IH. assumption.
    + exfalso. apply Hn. rewrite <- E. exists a', rest'. auto.
  - assert (Hocc : occurs_at_head (ref_text a ++ rest)) by (exists a, rest; auto).
    inversion H' as [E| ? ? l1 Hn' HS1 E|a' rest' l1 Hq' Hr' HS1 E]; subst.
    + pose proof (ref_text_nonempty a rest Hq) as Hlt. rewrite <- E in Hlt. cbn in Hlt. lia.
    + rewrite <- E in Hocc. contradiction.
    + pose proof (re_match_asset a rest Hq Hr) as E1.
      pose proof (re_match_asset a' rest' Hq' Hr') as E2.
      rewrite <- E, E2 in E1. injection E1 as ? ? ? ? ?.
      destruct a, a'; cbn in *; subst. f_equal. apply IH. assumption.
Qed.

(** More rounds than the content has characters change nothing. *)
Lemma re_sub_fuel_enough (fuel : nat) (s : text) (st : rw_state) :
  length s <= fuel ->
  re_sub_fuel fuel ASSET_PATTERN replace_version s st
  = re_sub ASSET_PATTERN replace_version s st.
Proof.
  intros Hlen. unfold re_sub.
  destruct (re_sub_fuel_scan fuel s st Hlen) as (l & HS & ->).
  destruct (re_sub_fuel_scan (length s) s st (Nat.le_refl _)) as (l' & HS' & ->).
  rewrite (Scan_functional _ _ _ HS HS'). reflexivity.
Qed.

Lemma occurs_at_head_nonempty : ~ occurs_at_head [].
Proof.
  intros (a & rest & Hq & E).
  pose proof (ref_text_nonempty a rest Hq) as Hlt. rewrite <- E in Hlt. cbn in Hlt. lia.
Qed.

Lemma occursb_false (s : text) : occursb s = false -> ~ occurs_somewhere s.
Proof.
  induction s as [|c s IH]; intros Hb (pre & post & E & Hocc).
  - destruct pre; [|discriminate]. cbn in E. subst post.
    exact (occurs_at_head_nonempty Hocc).
  - cbn [occursb] in Hb. apply orb_false_elim in Hb as [Hm Hb].
    destruct pre as [|x pre]; cbn in E.
    + subst post. apply bool_decide_eq_false in Hm. apply Hm.
      destruct (re_match ASSET_PATTERN (c :: s)) eqn:Er; [eexists; reflexivity|].
      apply re_match_asset_none in Er. contradiction.
    + injection E as -> ->. apply (IH Hb). exists pre, post. auto.
Qed.

(** What a segmentation says, spelled out position by position. *)
Lemma Scan_segments (s : text) (l : list segment) :
  Scan s l ->
  (forall pre a post, l = pre ++ Ref a :: post ->
     qualifying a /\ heads is_digit (src_text post) = false)
  /\ (forall pre c post, l = pre ++ Keep c :: post ->
     ~ occurs_at_head (c :: src_text post)).
Proof.
  induction 1 as [|c s l Hn HS [IH1 IH2]|a rest l Hq Hr HS [IH1 IH2]].
  - split; intros pre ? post E; destruct pre; discriminate.
  - split; intros pre x post E.
    + destruct pre as [|y pre]; [discriminate|]. injection E as ? ?; subst. eapply IH1; reflexivity.
    + destruct pre as [|y pre].
      * injection E as ? ?; subst. rewrite (Scan_src _ _ HS). exact Hn.
      * injection E as ? ?; subst. eapply IH2; reflexivity.
  - split; intros pre x post E.
    + destruct pre as [|y pre].
      * injection E as ? ?; subst. rewrite (Scan_src _ _ HS). auto.
      * injection E as ? ?; subst. eapply IH1; reflexivity.
    + destruct pre as [|y pre]; [discriminate|]. injection E as ? ?; subst. eapply IH2; reflexivity.
Qed.

Lemma Scan_refs_qualifying (s : text) (l : list segment) :
  Scan s l -> Forall qualifying (refs l).
Proof. induction 1; cbn; auto. Qed.

Lemma Scan_without_refs (s : text) (l : list segment) :
  Scan s l -> refs l = [] -> new_text l = s.
Proof.
  induction 1 as [|c s l Hn HS IH|a rest l Hq Hr HS IH]; intros Hrefs; unfold new_text in *; cbn in *.
  - reflexivity.
  - rewrite IH by assumption. reflexivity.
  - discriminate.
Qed.

Lemma Scan_no_occurrence (s : text) (l : list segment) :
  Scan s l -> ~ occurs_somewhere s -> refs l = [].
Proof.
  induction 1 as [|c s l Hn HS IH|a rest l Hq Hr HS IH]; intros Hno; cbn.
  - reflexivity.
  - apply IH. intros (pre & post & -> & Hocc). apply Hno.
    exists (c :: pre), post. auto.
  - exfalso. apply Hno. exists [], (ref_text a ++ rest). split; [reflexivity|].
    exists a, rest. auto.
Qed.

Lemma Scan_occurrence (s : text) (l : list segment) :
  Scan s l -> occurs_somewhere s -> refs l <> [].
Proof.
  induction 1 as [|c s l Hn HS IH|a rest l Hq Hr HS IH]; intros (pre & post & E & Hocc); cbn.
  - destruct pre; [|discriminate]. cbn in E. subst. destruct (occurs_at_head_nonempty Hocc).
  - destruct pre as [|x pre]; cbn in E.
    + subst. contradiction.
    + injection E as -> ->. apply IH. exists pre, post. auto.
  - discriminate.
Qed.

(** C2 (as amended). [update_cdn_versions] rewrites every qualifying
    reference, not only the first.  The content splits, from left to right
    and without overlap, into kept characters and references, and the
    updated content is the same sequence with each reference rewritten.
    Every reference of the split qualifies: the CDN prefix, at least one
    file-name character (word character, dot, underscore or hyphen), the
    extension [.js] or [.css], then [?v=] and a digit triple whose patch
    group takes all the digits there are.  At no kept character does a
    qualifying reference start. *)
Theorem update_cdn_versions_rewrites_all (content : text) :
  exists segs,
    content = src_text segs
    /\ (update_cdn_versions content).1.1 = new_text segs
    /\ (forall pre a post, segs = pre ++ Ref a :: post ->
          qualifying a /\ heads is_digit (src_text post) = false)
    /\ (forall pre c post, segs = pre ++ Keep c :: post ->
          ~ occurs_at_head (c :: src_text post)).
Proof.
  destruct (update_cdn_versions_scan content) as (l & HS & E).
  exists l. rewrite E. cbn [fst].
  split; [symmetry; apply Scan_src; assumption|].
  split; [reflexivity|]. apply Scan_segments with (s := content). assumption.
Qed.

(** C7. A content in which no qualifying reference starts at any position
    is returned as it is, with a change count of 0 and an empty map. *)
Theorem update_cdn_versions_no_occurrence (content : text) :
  ~ occurs_somewhere content ->
  update_cdn_versions content = (content, 0, ∅).
Proof.
  intros Hno. destruct (update_cdn_versions_scan content) as (l & HS & ->).
  pose proof (Scan_no_occurrence _ _ HS Hno) as Hrefs.
  rewrite (Scan_without_refs _ _ HS Hrefs), Hrefs.
  reflexivity.
Qed.

Lemma version_of_app_nil (major minor patch : text) :
  version_of major minor patch = version_of major minor patch ++ [].
Proof. symmetry. apply app_nil_r. Qed.

(** The fallback branch of [increment_version] is not taken on the version
    of a qualifying reference. *)
Lemma new_version_spec (a : asset_ref) :
  qualifying a ->
  new_version a
  = version_of (a_major a) (a_minor a) (format_02d (int (a_patch a) + 1)).
Proof.
  intros (_ & HM & Hm & Hp). unfold new_version, old_version, increment_version.
  rewrite version_of_app_nil, re_match_triple by (assumption || reflexivity).
  reflexivity.
Qed.

Lemma digit_run_unique (p : text) :
  forall p' r r',
  Forall (fun c => is_digit c = true) p -> Forall (fun c => is_digit c = true) p' ->
  heads is_digit r = false -> heads is_digit r' = false ->
  p ++ r = p' ++ r' -> p = p' /\ r = r'.
Proof.
  induction p as [|c p IH]; intros p' r r' Hp Hp' Hr Hr' E.
  - destruct p' as [|c' p']; [auto|].
    cbn in E. subst r. inversion Hp'; subst. cbn in Hr. congruence.
  - destruct p' as [|c' p'].
    + cbn in E. subst r'. inversion Hp; subst. cbn in Hr'. congruence.
    + cbn in E. injection E as -> E. inversion Hp; inversion Hp'; subst.
      destruct (IH p' r r') as [-> ->]; auto.
Qed.

Lemma patch_changes (patch : text) : format_02d (int patch + 1) <> patch.
Proof.
  intros E. destruct (format_02d_spec (int patch + 1)) as (_ & Hint & _).
  rewrite E in Hint. lia.
Qed.


Lemma qualifying_base_head (a : asset_ref) :
  qualifying a -> exists u, a_base a = "h"%char :: u.
Proof.
  intros ((stem & ext & Hb & _) & _). rewrite Hb. eexists. reflexivity.
Qed.

(** The updated content starts with a digit exactly when the content does. *)
Lemma Scan_heads (s : text) (l : list segment) :
  Scan s l -> heads is_digit (new_text l) = heads is_digit s.
Proof.
  destruct 1 as [|c s l Hn HS|a rest l Hq Hr HS]; [reflexivity | reflexivity |].
  destruct (qualifying_base_head a Hq) as (u & Hu).
  unfold new_text, ref_text. cbn [map concat seg_new]. rewrite Hu. reflexivity.
Qed.

(** A segmentation with a reference changes the text. *)
Lemma Scan_with_refs (s : text) (l : list segment) :
  Scan s l -> refs l <> [] -> new_text l <> s.
Proof.
  induction 1 as [|c s l Hn HS IH|a rest l Hq Hr HS IH]; intros Hrefs.
  - cbn in Hrefs. congruence.
  - intros E. injection E as E. exact (IH Hrefs E).
  - intros E. clear IH Hrefs.
    change (new_text (Ref a :: l))
      with ((a_base a ++ str "?v=" ++ new_version a) ++ new_text l) in E.
    unfold ref_text, old_version in E.
    rewrite (new_version_spec a Hq) in E. unfold version_of in E.
    repeat rewrite <- app_assoc in E.
    do 6 apply app_inv_head in E.
    destruct Hq as (_ & _ & _ & _ & Hp).
    destruct (format_02d_spec (int (a_patch a) + 1)) as ((_ & Hd) & _).
    apply digit_run_unique in E as [E _]; try assumption.
    + exact (patch_changes _ E).
    + rewrite (Scan_heads _ _ HS). assumption.
Qed.

Lemma Forall_class_ne (p : ascii -> bool) (x : ascii) (w : text) :
  p x = false -> Forall (fun c => p c = true) w -> Forall (fun c => c <> x) w.
Proof.
  intros Hx Hw. induction Hw as [|c w Hc Hw IH]; constructor; [congruence | assumption].
Qed.

(** Kept characters and references up to a text without [h]: only kept
    characters can produce it. *)
Lemma Scan_new_prefix_keep (w : text) :
  forall s l t',
  Scan s l -> new_text l = w ++ t' -> Forall (fun c => c <> "h"%char) w ->
  exists t l', s = w ++ t /\ Scan t l' /\ new_text l' = t'.
Proof.
  induction w as [|x w IH]; intros s l t' HS E Hw.
  - exists s, l. auto.
  - inversion Hw as [|? ? Hx Hw']; subst.
    destruct HS as [|c s l Hn HS|a rest l Hq Hr HS].
    + discriminate.
    + injection E as -> E.
      destruct (IH s l t' HS E Hw') as (t & l' & -> & HS' & E').
      exists t, l'. auto.
    + destruct (qualifying_base_head a Hq) as (u & Hu).
      unfold new_text in E. cbn [map concat seg_new] in E. rewrite Hu in E.
      injection E as E _. congruence.
Qed.

Lemma prefix_before_colon (w t' u : text) :
  w ++ t' = str "https:" ++ u -> Forall (fun c => c <> ":"%char) w ->
  exists v, str "https:" = w ++ v.
Proof.
  intros E Hw.
  do 6 (destruct w as [|? w]; [eexists; reflexivity|];
        cbn in E; injection E as -> E; inversion Hw as [|? ? ? Hw']; subst;
        clear Hw; rename Hw' into Hw).
  congruence.
Qed.

Lemma CDN_URL_scheme : str CDN_URL = str "https:" ++ str "//pub-85443b585f1e4411ab5cc976c4fb08ca.r2.dev/".
Proof. reflexivity. Qed.

(** Up to the first colon, the content and its update read the same. *)
Lemma Scan_new_prefix (w : text) :
  forall s l t',
  Scan s l -> new_text l = w ++ t' -> Forall (fun c => c <> ":"%char) w ->
  exists t, s = w ++ t.
Proof.
  induction w as [|x w IH]; intros s l t' HS E Hw.
  - exists s. reflexivity.
  - inversion Hw as [|? ? Hx Hw']; subst.
    destruct HS as [|c s l Hn HS|a rest l Hq Hr HS].
    + discriminate.
    + injection E as -> E.
      destruct (IH s l t' HS E Hw') as (t & ->).
      exists t. reflexivity.
    + destruct Hq as ((stem & ext & Hb & _) & _).
      unfold new_text in E. cbn [map concat seg_new] in E.
      unfold ref_text. rewrite Hb in *. rewrite CDN_URL_scheme in *.
      repeat rewrite <- app_assoc in E. symmetry in E.
      apply prefix_before_colon in E as (v & Hv); [|assumption].
      repeat rewrite <- app_assoc. rewrite Hv. rewrite <- app_assoc.
      eexists. reflexivity.
Qed.

Lemma bump_qualifying (a : asset_ref) : qualifying a -> qualifying (bump a).
Proof.
  intros (Hb & HM & Hm & Hp). refine (conj Hb (conj HM (conj Hm _))).
  apply format_02d_spec.
Qed.

(** What one run writes for a reference is the reference of the next run. *)
Lemma seg_new_bump (a : asset_ref) :
  qualifying a -> seg_new (Ref a) = ref_text (bump a).
Proof.
  intros Hq. cbn [seg_new]. rewrite (new_version_spec a Hq). reflexivity.
Qed.

Lemma new_text_bump (s : text) (l : list segment) :
  Scan s l -> new_text l = src_text (map bump_seg l).
Proof.
  induction 1 as [|c s l Hn HS IH|a rest l Hq Hr HS IH].
  - reflexivity.
  - unfold new_text, src_text in *. cbn. rewrite IH. reflexivity.
  - unfold new_text, src_text in *. cbn [map concat bump_seg seg_src].
    rewrite (seg_new_bump a Hq), IH. reflexivity.
Qed.

Lemma refs_bump (l : list segment) : refs (map bump_seg l) = map bump (refs l).
Proof.
  induction l as [|[c|a] l IH]; cbn; [reflexivity | assumption | rewrite IH; reflexivity].
Qed.

Lemma tail_of_reference_no_colon (stem ext : text) (a : asset_ref) :
  Forall (fun c => is_name_char c = true) stem -> is_extension ext ->
  digit_group (a_major a) -> digit_group (a_minor a) -> digit_group (a_patch a) ->
  Forall (fun c => c <> ":"%char) (stem ++ ext ++ str "?v=" ++ old_version a).
Proof.
  intros Hstem Hext [_ HM] [_ Hm] [_ Hp].
  assert (Hd : forall d, Forall (fun c => is_digit c = true) d ->
                         Forall (fun c => c <> ":"%char) d).
  { intros d. apply Forall_class_ne. reflexivity. }
  unfold old_version, version_of.
  repeat (apply Forall_app; split); auto.
  - eapply Forall_class_ne; [|eassumption]. reflexivity.
  - destruct Hext as [-> | ->]; repeat constructor; discriminate.
  - repeat constructor; discriminate.
  - repeat constructor; discriminate.
  - repeat constructor; discriminate.
Qed.

Lemma CDN_URL_tail_no_h :
  exists u, str CDN_URL = "h"%char :: u /\ Forall (fun c => c <> "h"%char) u.
Proof.
  eexists. split; [reflexivity|].
  repeat (constructor; [discriminate|]). constructor.
Qed.

(** Where the content has no reference at its head, the updated content
    has none either. *)
Lemma Scan_keeps_absence (c : ascii) (s : text) (l : list segment) :
  Scan s l -> ~ occurs_at_head (c :: s) -> ~ occurs_at_head (c :: new_text l).
Proof.
  intros HS Hn (a & rest' & Hq & E). apply Hn.
  destruct Hq as ((stem & ext & Hb & Hne & Hstem & Hext) & HM & Hm & Hp).
  destruct CDN_URL_tail_no_h as (u & Hu & Hnoh).
  unfold ref_text in E. rewrite Hb, Hu in E. repeat rewrite <- app_assoc in E.
  rewrite <- app_comm_cons in E. injection E as -> E.
  destruct (Scan_new_prefix_keep u s l _ HS E Hnoh) as (t & l' & -> & HS' & E').
  assert (E2 : new_text l' = (stem ++ ext ++ str "?v=" ++ old_version a) ++ rest')
    by (rewrite E'; repeat rewrite <- app_assoc; reflexivity).
  destruct (Scan_new_prefix _ t l' rest' HS' E2
              (tail_of_reference_no_colon stem ext a Hstem Hext HM Hm Hp)) as (t2 & ->).
  exists a, t2. split.
  - split; [exists stem, ext; auto | auto].
  - unfold ref_text. rewrite Hb, Hu. repeat rewrite <- app_assoc. reflexivity.
Qed.

Lemma app_eq_app_sep {A} (w : list A) :
  forall u rest (sep : A) v,
  w ++ rest = u ++ sep :: v -> ~ In sep w ->
  exists u', u = w ++ u' /\ rest = u' ++ sep :: v.
Proof.
  induction w as [|x w IH]; intros u rest sep v E Hin.
  - exists u. auto.
  - destruct u as [|y u]; cbn in E.
    + injection E as -> _. exfalso. apply Hin. left. reflexivity.
    + injection E as -> E.
      destruct (IH u rest sep v E) as (u' & -> & ->).
      { intros H. apply Hin. right. exact H. }
      exists u'. auto.
Qed.

(** The scheme [https:] does not start inside a text without a colon that
    ends in a digit. *)
Lemma scheme_not_inside (t : text) :
  forall u r z,
  t ++ r = u ++ str "https:" ++ z ->
  Forall (fun c => c <> ":"%char) t ->
  (t = [] \/ exists t' d, t = t' ++ [d] /\ is_digit d = true) ->
  exists u', u = t ++ u'.
Proof.
  induction t as [|c t IH]; intros u r z E Hcolon Hlast.
  - exists u. reflexivity.
  - destruct u as [|y u].
    + exfalso. destruct Hlast as [|(t' & d & Et & Hd)]; [discriminate|].
      cbn [app] in E.
      destruct (prefix_before_colon (c :: t) r z E Hcolon) as (v & Hv).
      rewrite Et in Hv.
      do 6 (destruct t' as [|? t'];
            [cbn in Hv; injection Hv as ? ?; subst; discriminate|];
            cbn in Hv; injection Hv as ? Hv).
      destruct t'; discriminate.
    + cbn in E. injection E as -> E.
      inversion Hcolon as [|? ? _ Hcolon']; subst.
      destruct (IH u r z E Hcolon') as (u' & ->).
      * destruct Hlast as [|(t' & d & Et & Hd)]; [discriminate|].
        destruct t' as [|x t'].
        -- left. cbn in Et. congruence.
        -- right. exists t', d. cbn in Et. split; [congruence | assumption].
      * exists u'. reflexivity.
Qed.

Lemma digit_group_last (p : text) :
  digit_group p -> exists p' d, p = p' ++ [d] /\ is_digit d = true.
Proof.
  intros [Hne Hd]. destruct (exists_last Hne) as (p' & d & ->).
  exists p', d. split; [reflexivity|].
  apply Forall_app in Hd as [_ Hd]. inversion Hd; assumption.
Qed.

(** A reference does not start inside the span of another one. *)
Lemma ref_no_overlap (a0 a : asset_ref) (rest0 rest pre : text) :
  qualifying a0 -> qualifying a ->
  ref_text a0 ++ rest0 = pre ++ ref_text a ++ rest ->
  pre = [] \/ exists pre', pre = ref_text a0 ++ pre'.
Proof.
  intros ((stem0 & ext0 & Hb0 & _ & Hstem0 & Hext0) & HM0 & Hm0 & Hp0)
         ((stem & ext & Hb & _) & _) E.
  destruct pre as [|x pre]; [left; reflexivity | right].
  pose proof (tail_of_reference_no_colon stem0 ext0 a0 Hstem0 Hext0 HM0 Hm0 Hp0) as Hcolon.
  destruct (digit_group_last _ Hp0) as (p' & d & Ep & Hd).
  destruct CDN_URL_tail_no_h as (u & Hu & Hnoh).
  unfold ref_text in *. rewrite Hb0, Hb in *. rewrite Hu in E |- *.
  repeat rewrite <- app_assoc in E. cbn [app] in E. injection E as <- E.
  apply app_eq_app_sep in E as (v & -> & E).
  2:{ intros Hin. rewrite List.Forall_forall in Hnoh. exact (Hnoh _ Hin eq_refl). }
  injection Hu as Hu. subst u.
  assert (E' : (stem0 ++ ext0 ++ str "?v=" ++ old_version a0) ++ rest0
               = v ++ str "https:" ++ (str "//pub-85443b585f1e4411ab5cc976c4fb08ca.r2.dev/"
                           ++ stem ++ ext ++ str "?v=" ++ old_version a ++ rest)).
  { repeat rewrite <- app_assoc. exact E. }
  clear E.
  apply scheme_not_inside in E' as (v' & ->); [| exact Hcolon |].
  - exists v'. repeat rewrite <- app_assoc. reflexivity.
  - right. exists (stem0 ++ ext0 ++ str "?v=" ++ a_major a0 ++ str "." ++ a_minor a0 ++ str "." ++ p'), d.
    split; [|exact Hd]. unfold old_version, version_of. rewrite Ep.
    repeat rewrite <- app_assoc. reflexivity.
Qed.

(** Every reference of the content, its patch group taken as long as the
    digits go, is a reference of the segmentation, at its place. *)
Lemma Scan_finds (s : text) (l : list segment) :
  Scan s l ->
  forall pre a rest,
  qualifying a -> heads is_digit rest = false -> s = pre ++ ref_text a ++ rest ->
  exists spre spost,
    l = spre ++ Ref a :: spost /\ src_text spre = pre /\ src_text spost = rest.
Proof.
  induction 1 as [|c s l Hn HS IH|a0 rest0 l Hq0 Hr0 HS IH]; intros pre a rest Hq Hr E.
  - exfalso. pose proof (ref_text_nonempty a rest Hq) as Hlt.
    destruct pre; [|discriminate]. cbn [app] in E. rewrite <- E in Hlt. cbn in Hlt. lia.
  - destruct pre as [|x pre].
    + exfalso. apply Hn. exists a, rest. auto.
    + cbn in E. injection E as <- E.
      destruct (IH pre a rest Hq Hr E) as (spre & spost & -> & <- & <-).
      exists (Keep c :: spre), spost. auto.
  - destruct (ref_no_overlap a0 a rest0 rest pre Hq0 Hq E) as [-> | (pre' & ->)].
    + cbn [app] in E.
      pose proof (re_match_asset a0 rest0 Hq0 Hr0) as E1.
      pose proof (re_match_asset a rest Hq Hr) as E2.
      rewrite E, E2 in E1. injection E1 as ? ? ? ? ?.
      destruct a, a0; cbn in *; subst.
      exists [], l. split; [reflexivity|]. split; [reflexivity|].
      apply (Scan_src _ _ HS).
    + rewrite <- app_assoc in E. apply app_inv_head in E.
      destruct (IH pre' a rest Hq Hr E) as (spre & spost & -> & <- & <-).
      exists (Ref a0 :: spre), spost. auto.
Qed.

(** C4. The updated content is the content with each matched span
    replaced by the captured base, [?v=] and the incremented version, which
    is the old one with its patch number plus one.  Every character outside
    the matched spans is kept where it is, and the change count is the
    number of matched spans.  The matched spans are all the qualifying
    references of the content: wherever one stands, its patch group taken
    as long as the digits go, it is a span of the split, and the updated
    content is the update of what precedes it, the base, [?v=] and the
    incremented version, and the update of what follows it.  At no kept
    character does a qualifying reference start. *)
Theorem update_cdn_versions_frame (content : text) :
  exists segs,
    content = concat (map seg_src segs)
    /\ (update_cdn_versions content).1.1 = concat (map seg_new segs)
    /\ (update_cdn_versions content).1.2 = length (refs segs)
    /\ Forall (fun sg =>
         match sg with
         | Keep c => seg_src sg = [c] /\ seg_new sg = [c]
         | Ref a =>
             qualifying a
             /\ seg_src sg = a_base a ++ str "?v=" ++ old_version a
             /\ seg_new sg = a_base a ++ str "?v=" ++ increment_version (old_version a)
             /\ increment_version (old_version a)
                = version_of (a_major a) (a_minor a) (format_02d (int (a_patch a) + 1))
         end) segs
    /\ (forall pre a rest,
          qualifying a -> heads is_digit rest = false ->
          content = pre ++ ref_text a ++ rest ->
          exists spre spost,
            segs = spre ++ Ref a :: spost
            /\ concat (map seg_src spre) = pre
            /\ concat (map seg_src spost) = rest
            /\ (update_cdn_versions content).1.1
               = concat (map seg_new spre)
                 ++ (a_base a ++ str "?v=" ++ increment_version (old_version a))
                 ++ concat (map seg_new spost))
    /\ (forall pre c post, segs = pre ++ Keep c :: post ->
          ~ occurs_at_head (c :: concat (map seg_src post))).
Proof.
  destruct (update_cdn_versions_scan content) as (l & HS & E).
  exists l. rewrite E. cbn [fst snd].
  split; [symmetry; apply (Scan_src _ _ HS)|].
  split; [reflexivity|]. split; [reflexivity|].
  split; [|split].
  - clear E. induction HS as [|c s l Hn HS IH|a rest l Hq Hr HS IH]; constructor; try assumption.
    + auto.
    + refine (conj Hq (conj eq_refl (conj eq_refl _))). apply (new_version_spec a Hq).
  - intros pre a rest Hq Hr Ec.
    destruct (Scan_finds _ _ HS pre a rest Hq Hr Ec) as (spre & spost & -> & Hpre & Hpost).
    exists spre, spost. split; [reflexivity|]. split; [exact Hpre|]. split; [exact Hpost|].
    unfold new_text. rewrite map_app, concat_app. reflexivity.
  - apply (Scan_segments _ _ HS).
Qed.

(** The segmentation of the updated content is that of the content, with
    every reference bumped. *)
Lemma Scan_bump (s : text) (l : list segment) :
  Scan s l -> Scan (new_text l) (map bump_seg l).
Proof.
  induction 1 as [|c s l Hn HS IH|a rest l Hq Hr HS IH].
  - constructor.
  - change (new_text (Keep c :: l)) with (c :: new_text l).
    cbn [map bump_seg]. constructor; [|assumption].
    apply (Scan_keeps_absence c s l); assumption.
  - change (new_text (Ref a :: l)) with (seg_new (Ref a) ++ new_text l).
    rewrite (seg_new_bump a Hq). cbn [map bump_seg].
    constructor; [apply bump_qualifying; assumption | | assumption].
    rewrite (Scan_heads _ _ HS). assumption.
Qed.

Lemma bump_patch (a : asset_ref) : int (a_patch (bump a)) = int (a_patch a) + 1.
Proof. cbn [bump a_patch]. apply format_02d_spec. Qed.

Lemma length_refs_bump (l : list segment) :
  length (refs (map bump_seg l)) = length (refs l).
Proof. rewrite refs_bump. apply length_map. Qed.

(** C5. [update_cdn_versions] is not idempotent.  On a content with at
    least one qualifying reference the first run counts at least one
    change.  A second run, on the output of the first, finds the same
    references with their patch numbers incremented once, counts as many
    changes as the first run, increments every patch number once more, and
    returns a text that differs from the one it was given. *)
Theorem update_cdn_versions_not_idempotent (content : text) :
  occurs_somewhere content ->
  exists segs,
    Scan content segs /\
    let run1 := update_cdn_versions content in
    let run2 := update_cdn_versions run1.1.1 in
    0 < run1.1.2
    /\ run2.1.2 = run1.1.2
    /\ run2.1.1 <> run1.1.1
    /\ run1.1.1 = src_text (map bump_seg segs)
    /\ Scan run1.1.1 (map bump_seg segs)
    /\ run2.1.1 = src_text (map bump_seg (map bump_seg segs))
    /\ Forall (fun a => int (a_patch (bump a)) = int (a_patch a) + 1
                        /\ int (a_patch (bump (bump a))) = int (a_patch a) + 2)
         (refs segs).
Proof.
  intros Hocc.
  destruct (update_cdn_versions_scan content) as (l & HS & E1).
  exists l. split; [assumption|]. cbv zeta. rewrite E1. cbn [fst snd].
  pose proof (Scan_bump _ _ HS) as HS1.
  destruct (update_cdn_versions_scan (new_text l)) as (l1 & HS2 & E2).
  rewrite (Scan_functional _ _ _ HS2 HS1) in E2. rewrite E2. cbn [fst snd].
  pose proof (Scan_occurrence _ _ HS Hocc) as Hrefs.
  split; [destruct (refs l); [congruence | cbn; lia]|].
  split; [apply length_refs_bump|].
  split.
  { apply (Scan_with_refs _ _ HS1). rewrite refs_bump.
    destruct (refs l); [congruence | discriminate]. }
  split; [apply (new_text_bump _ _ HS)|].
  split; [assumption|].
  split; [apply (new_text_bump _ _ HS1)|].
  apply Forall_forall. intros a _. rewrite !bump_patch. lia.
Qed.

Lemma record_changes_lookup (rs : list asset_ref) :
  forall (m : gmap text (text * text)) f v,
  record_changes rs m !! f = Some v ->
  m !! f = Some v
  \/ exists a, In a rs /\ f = filename_of a /\ v = (old_version a, new_version a).
Proof.
  induction rs as [|a rs IH]; intros m f v H; cbn in H; [auto|].
  apply IH in H as [H | (b & Hb & -> & ->)].
  - destruct (decide (filename_of a = f)) as [<-|Hne].
    + rewrite lookup_insert_eq in H. injection H as <-.
      right. exists a. cbn. auto.
    + rewrite lookup_insert_ne in H by assumption. auto.
  - right. exists b. cbn. auto.
Qed.


Lemma split_aux_single (sep : ascii) (s : text) :
  forall cur, Forall (fun c => c <> sep) s -> split_aux sep cur s = [rev cur ++ s].
Proof.
  induction s as [|c s IH]; intros cur Hs; cbn.
  - rewrite app_nil_r. reflexivity.
  - inversion Hs as [|? ? Hc Hs']; subst.
    destruct (Ascii.eqb_spec c sep) as [->|_]; [congruence|].
    rewrite IH by assumption. cbn. rewrite <- app_assoc. reflexivity.
Qed.

Lemma split_aux_nonempty (sep : ascii) (s : text) :
  forall cur, split_aux sep cur s <> [].
Proof.
  induction s as [|c s IH]; intros cur; cbn; [discriminate|].
  destruct (Ascii.eqb c sep); [discriminate | apply IH].
Qed.

Lemma last_split_aux (sep : ascii) (u v : text) :
  forall cur,
  List.last (split_aux sep cur (u ++ sep :: v)) [] = List.last (split_aux sep [] v) [].
Proof.
  induction u as [|c u IH]; intros cur; cbn [app split_aux].
  - rewrite Ascii.eqb_refl.
    pose proof (split_aux_nonempty sep v []) as Hne.
    destruct (split_aux sep [] v); [congruence | reflexivity].
  - destruct (Ascii.eqb c sep); [|apply IH].
    pose proof (split_aux_nonempty sep (u ++ sep :: v) []) as Hne.
    specialize (IH []).
    destruct (split_aux sep [] (u ++ sep :: v)); [congruence | exact IH].
Qed.

(** The recorded file name is what follows the CDN prefix. *)
Lemma filename_of_qualifying (a : asset_ref) (stem ext : text) :
  a_base a = str CDN_URL ++ stem ++ ext ->
  Forall (fun c => is_name_char c = true) stem -> is_extension ext ->
  filename_of a = stem ++ ext.
Proof.
  intros Hb Hstem Hext. unfold filename_of, str_split. rewrite Hb.
  change (str CDN_URL)
    with (str "https://pub-85443b585f1e4411ab5cc976c4fb08ca.r2.dev" ++ ["/"%char]).
  rewrite <- app_assoc. cbn [app].
  rewrite last_split_aux, split_aux_single; [reflexivity|].
  apply Forall_app; split.
  - eapply Forall_class_ne; [|eassumption]. reflexivity.
  - destruct Hext as [-> | ->]; repeat constructor; discriminate.
Qed.

Lemma record_changes_other (rs : list asset_ref) :
  forall (m : gmap text (text * text)) f,
  Forall (fun b => filename_of b <> f) rs ->
  record_changes rs m !! f = m !! f.
Proof.
  induction rs as [|a rs IH]; intros m f H; cbn; [reflexivity|].
  inversion H as [|? ? Ha Hrs]; subst.
  rewrite IH by assumption. apply lookup_insert_ne. assumption.
Qed.

Lemma record_changes_app (r1 r2 : list asset_ref) (m : gmap text (text * text)) :
  record_changes (r1 ++ r2) m = record_changes r2 (record_changes r1 m).
Proof. apply fold_left_app. Qed.

(** The entry of a file name is the record of its last reference. *)
Lemma record_changes_last (pre post : list asset_ref) (a : asset_ref)
    (m : gmap text (text * text)) :
  Forall (fun b => filename_of b <> filename_of a) post ->
  record_changes (pre ++ a :: post) m !! filename_of a
  = Some (old_version a, new_version a).
Proof.
  intros Hpost. rewrite record_changes_app. cbn [record_changes fold_left].
  change (fold_left ?f post ?x) with (record_changes post x).
  rewrite record_changes_other by assumption.
  apply lookup_insert_eq.
Qed.

Lemma merge_changes_union (all_changes version_changes : gmap text (text * text)) :
  merge_changes all_changes version_changes = all_changes ∪ version_changes.
Proof.
  unfold merge_changes.
  apply (map_fold_weak_ind (fun r m => r = all_changes ∪ m)).
  - rewrite (right_id_L ∅ (∪)). reflexivity.
  - intros i x m r Hi ->.
    rewrite lookup_union_l by assumption.
    destruct (all_changes !! i) as [y|] eqn:Hall.
    + apply map_eq. intros j. rewrite !lookup_union.
      destruct (decide (i = j)) as [<-|Hne].
      * rewrite Hall, Hi, lookup_insert_eq. reflexivity.
      * rewrite lookup_insert_ne by assumption. reflexivity.
    + apply insert_union_r. assumption.
Qed.

(** The merge keeps what the summary holds and adds only new names. *)
Lemma merge_changes_lookup (all_changes version_changes : gmap text (text * text))
    (f : text) :
  merge_changes all_changes version_changes !! f
  = match all_changes !! f with
    | Some v => Some v
    | None => version_changes !! f
    end.
Proof.
  rewrite merge_changes_union, lookup_union.
  destruct (all_changes !! f), (version_changes !! f); reflexivity.
Qed.

Lemma reads_app (o1 o2 : list op) : reads (o1 ++ o2) = reads o1 ++ reads o2.
Proof.
  induction o1 as [|[p|p d|p] o1 IH]; cbn; [reflexivity | rewrite IH; reflexivity | assumption | assumption].
Qed.

(** The cases of [process_html_file], one by one. *)
Lemma process_unreadable (p : path) (w : world) :
  w_fs w !! p ≫= f_text = None ->
  process_html_file p w
  = ((false, 0, ∅), World (w_fs w) (w_listing w) (w_log w ++ [OpRead p; OpStderr p])).
Proof.
  intros H. unfold process_html_file, read_file. rewrite H.
  unfold report_error, log. cbn. rewrite <- app_assoc. reflexivity.
Qed.

Lemma process_unchanged (p : path) (w : world) (content : text) :
  w_fs w !! p ≫= f_text = Some content ->
  (update_cdn_versions content).1.2 = 0 ->
  process_html_file p w
  = ((true, 0, ∅), World (w_fs w) (w_listing w) (w_log w ++ [OpRead p])).
Proof.
  intros H Hn. unfold process_html_file, read_file. rewrite H.
  destruct (update_cdn_versions content) as [[updated n] changes]. cbn in Hn. subst n.
  reflexivity.
Qed.

Lemma process_written (p : path) (w : world) (content : text) :
  w_fs w !! p = Some (File (Some content) true) ->
  0 < (update_cdn_versions content).1.2 ->
  process_html_file p w
  = ((true, (update_cdn_versions content).1.2, (update_cdn_versions content).2),
     World (<[p := File (Some (update_cdn_versions content).1.1) true]> (w_fs w))
       (w_listing w)
       (w_log w ++ [OpRead p; OpWrite p (update_cdn_versions content).1.1])).
Proof.
  intros H Hn. unfold process_html_file, read_file. rewrite H. cbn [mbind option_bind f_text].
  destruct (update_cdn_versions content) as [[updated n] changes]. cbn [fst snd] in *.
  destruct (Nat.ltb_spec 0 n); [|lia].
  unfold write_file, log. cbn [w_fs w_log w_listing]. rewrite H.
  rewrite <- app_assoc. reflexivity.
Qed.

Lemma process_unwritable (p : path) (w : world) (content : text) :
  w_fs w !! p = Some (File (Some content) false) ->
  0 < (update_cdn_versions content).1.2 ->
  process_html_file p w
  = ((false, 0, ∅),
     World (w_fs w) (w_listing w)
       (w_log w ++ [OpRead p; OpWrite p (update_cdn_versions content).1.1; OpStderr p])).
Proof.
  intros H Hn. unfold process_html_file, read_file. rewrite H. cbn [mbind option_bind f_text].
  destruct (update_cdn_versions content) as [[updated n] changes]. cbn [fst snd] in *.
  destruct (Nat.ltb_spec 0 n); [|lia].
  unfold write_file, report_error, log. cbn [w_fs w_log w_listing]. rewrite H.
  cbn [w_fs w_log w_listing]. repeat rewrite <- app_assoc. reflexivity.
Qed.

(** One file: a write exactly when the count is positive. *)
Lemma process_html_file_writes_iff_changed
    (p : path) (w : world) (content : text) (writable : bool) :
  w_fs w !! p = Some (File (Some content) writable) ->
  let run := update_cdn_versions content in
  let res := process_html_file p w in
  exists ops,
    w_log res.2 = w_log w ++ ops
    /\ (0 < run.1.2 <-> writes ops = [(p, run.1.1)])
    /\ (run.1.2 = 0 <-> writes ops = [])
    /\ (run.1.2 = 0 -> w_fs res.2 = w_fs w)
    /\ (0 < run.1.2 -> writable = true ->
        w_fs res.2 = <[p := File (Some run.1.1) true]> (w_fs w)).
Proof.
  intros Hfile run res. subst res.
  assert (Hread : w_fs w !! p ≫= f_text = Some content) by (rewrite Hfile; reflexivity).
  destruct (Nat.eq_0_gt_0_cases run.1.2) as [Hz|Hpos].
  - rewrite (process_unchanged p w content Hread Hz). cbn [snd w_log w_fs].
    exists [OpRead p]. cbn [writes].
    split; [reflexivity|]. split; [split; [lia | discriminate]|].
    split; [tauto|]. split; [reflexivity | lia].
  - destruct writable.
    + rewrite (process_written p w content Hfile Hpos). cbn [snd w_log w_fs].
      exists [OpRead p; OpWrite p run.1.1]. cbn [writes].
      split; [reflexivity|]. split; [tauto|].
      split; [split; [lia | discriminate]|].
      split; [lia | reflexivity].
    + rewrite (process_unwritable p w content Hfile Hpos). cbn [snd w_log w_fs].
      exists [OpRead p; OpWrite p run.1.1; OpStderr p]. cbn [writes].
      split; [reflexivity|]. split; [tauto|].
      split; [split; [lia | discriminate]|].
      split; [lia | discriminate].
Qed.

Lemma writes_app (o1 o2 : list op) : writes (o1 ++ o2) = writes o1 ++ writes o2.
Proof.
  induction o1 as [|[p|p d|p] o1 IH]; cbn; [reflexivity | assumption | rewrite IH; reflexivity | assumption].
Qed.

(** What processing one file does to the environment. *)
Lemma process_effects (p : path) (w : world) :
  exists ops,
    w_log (process_html_file p w).2 = w_log w ++ ops
    /\ writes ops = due_write w p
    /\ w_listing (process_html_file p w).2 = w_listing w
    /\ (forall q, q <> p -> w_fs (process_html_file p w).2 !! q = w_fs w !! q)
    /\ (due_write w p = [] -> w_fs (process_html_file p w).2 = w_fs w).
Proof.
  unfold due_write.
  destruct (w_fs w !! p ≫= f_text) as [content|] eqn:Hread.
  - destruct (Nat.eq_0_gt_0_cases (update_cdn_versions content).1.2) as [Hz|Hpos].
    + rewrite (process_unchanged p w content Hread Hz), Hz. cbn.
      exists [OpRead p]. auto.
    + destruct (Nat.ltb_spec 0 (update_cdn_versions content).1.2) as [_|]; [|lia].
      destruct (w_fs w !! p) as [[[c|] [|]]|] eqn:Hfile; cbn in Hread; try discriminate;
        injection Hread as ->.
      * rewrite (process_written p w content Hfile Hpos). cbn.
        exists [OpRead p; OpWrite p (update_cdn_versions content).1.1].
        repeat split; try discriminate.
        intros q Hq. apply lookup_insert_ne. congruence.
      * rewrite (process_unwritable p w content Hfile Hpos). cbn.
        exists [OpRead p; OpWrite p (update_cdn_versions content).1.1; OpStderr p].
        repeat split; discriminate.
  - rewrite (process_unreadable p w Hread). cbn.
    exists [OpRead p; OpStderr p]. auto.
Qed.

Lemma flat_map_agree {A B} (f g : A -> list B) (l : list A) :
  (forall x, In x l -> f x = g x) -> flat_map f l = flat_map g l.
Proof.
  induction l as [|x l IH]; intros H; cbn; [reflexivity|].
  rewrite (H x) by (left; reflexivity). rewrite IH; [reflexivity|].
  intros y Hy. apply H. right. assumption.
Qed.

Lemma main_step_effects (sm : summary) (w : world) (p : path) :
  (main_step (sm, w) p).2 = (process_html_file p w).2.
Proof.
  unfold main_step. destruct (process_html_file p w) as [[[ok n] vc] w'].
  destruct (ok && (0 <? n)); reflexivity.
Qed.

Lemma due_write_same (w w' : world) (p : path) :
  w_fs w' !! p = w_fs w !! p -> due_write w' p = due_write w p.
Proof. intros H. unfold due_write. rewrite H. reflexivity. Qed.

(** The loop of [main] writes what is due to each file of the list, in
    order, and touches nothing else. *)
Lemma main_loop_writes (files : list path) :
  forall sm w, List.NoDup files ->
  exists ops,
    w_log (fold_left main_step files (sm, w)).2 = w_log w ++ ops
    /\ writes ops = flat_map (due_write w) files
    /\ (forall q, ~ In q files \/ due_write w q = [] ->
          w_fs (fold_left main_step files (sm, w)).2 !! q = w_fs w !! q).
Proof.
  induction files as [|p files IH]; intros sm w Hnd; cbn [fold_left flat_map].
  - exists []. rewrite app_nil_r. auto.
  - inversion Hnd as [|? ? Hp Hnd']; subst.
    destruct (process_effects p w) as (ops1 & Hlog1 & Hw1 & _ & Hother & Hsame).
    pose proof (main_step_effects sm w p) as Hstep.
    destruct (main_step (sm, w) p) as [sm1 w1]. cbn [snd] in Hstep. subst w1.
    destruct (IH sm1 (process_html_file p w).2 Hnd') as (ops2 & Hlog2 & Hw2 & Hkeep).
    exists (ops1 ++ ops2). split; [|split].
    + rewrite Hlog2, Hlog1, <- app_assoc. reflexivity.
    + rewrite writes_app, Hw1, Hw2. f_equal.
      apply flat_map_agree. intros q Hq. apply due_write_same.
      apply Hother. intros ->. contradiction.
    + intros q Hq.
      assert (Hfs : w_fs (process_html_file p w).2 !! q = w_fs w !! q).
      { destruct (decide (q = p)) as [->|Hne]; [|apply Hother; assumption].
        destruct Hq as [Hq|Hq]; [exfalso; apply Hq; left; reflexivity|].
        rewrite (Hsame Hq). reflexivity. }
      rewrite Hkeep; [exact Hfs|].
      destruct Hq as [Hq|Hq]; [left; intros Hin; apply Hq; right; assumption|].
      right. rewrite (due_write_same w _ q Hfs). assumption.
Qed.

(** C8. The driver writes a file exactly when the rewrite reports a
    positive change count.  For an enumerated file that can be read,
    [process_html_file] with a positive count performs one write, of the
    updated text to the same path, and a writable file then holds the
    updated text in full; with a count of 0 it performs no write and leaves
    the files as they are.  Over a whole run on distinct files, the writes
    of [main] are, in order, those due to the listed files, and a file that
    is not listed or to which no write is due is left untouched. *)
Theorem driver_writes_iff_changed :
  (forall (p : path) (w : world) (content : text) (writable : bool),
     w_fs w !! p = Some (File (Some content) writable) ->
     let run := update_cdn_versions content in
     let res := process_html_file p w in
     exists ops,
       w_log res.2 = w_log w ++ ops
       /\ (0 < run.1.2 <-> writes ops = [(p, run.1.1)])
       /\ (run.1.2 = 0 <-> writes ops = [])
       /\ (run.1.2 = 0 -> w_fs res.2 = w_fs w)
       /\ (0 < run.1.2 -> writable = true ->
           w_fs res.2 = <[p := File (Some run.1.1) true]> (w_fs w)))
  /\ (forall (html_dir : path) (w : world) (files : list path),
        w_listing w = Some files -> List.NoDup files ->
        exists ops,
          w_log (main html_dir w).2 = w_log w ++ ops
          /\ writes ops = flat_map (due_write w) files
          /\ (forall q, ~ In q files \/ due_write w q = [] ->
                w_fs (main html_dir w).2 !! q = w_fs w !! q)).
Proof.
  split; [exact process_html_file_writes_iff_changed|].
  intros html_dir w files Hl Hnd. unfold main. rewrite Hl.
  destruct files as [|p files].
  - exists []. cbn. rewrite app_nil_r. auto.
  - destruct (main_loop_writes (p :: files) (Summary 0 0 ∅) w Hnd) as (ops & H).
    destruct (fold_left main_step (p :: files) (Summary 0 0 ∅, w)) as [sm w'].
    exists ops. exact H.
Qed.

Lemma process_cases (p : path) (w : world) :
  exists ops,
    (process_html_file p w).2 = World (w_fs (process_html_file p w).2) (w_listing w) (w_log w ++ ops)
    /\ reads ops = [p]
    /\ ((process_html_file p w).1.1.1 = false ->
        (process_html_file p w).1 = (false, 0, ∅)
        /\ w_fs (process_html_file p w).2 = w_fs w
        /\ exists ops', ops = ops' ++ [OpStderr p])
    /\ ((process_html_file p w).1.1.1 = true ->
        (process_html_file p w).1.1.2 = 0 -> (process_html_file p w).1.2 = ∅).
Proof.
  destruct (w_fs w !! p ≫= f_text) as [content|] eqn:Hread.
  - destruct (Nat.eq_0_gt_0_cases (update_cdn_versions content).1.2) as [Hz|Hpos].
    + rewrite (process_unchanged p w content Hread Hz). cbn.
      exists [OpRead p]. repeat split; discriminate.
    + destruct (w_fs w !! p) as [[[c|] [|]]|] eqn:Hfile; cbn in Hread; try discriminate;
        injection Hread as ->.
      * rewrite (process_written p w content Hfile Hpos). cbn.
        exists [OpRead p; OpWrite p (update_cdn_versions content).1.1].
        repeat split; try discriminate. intros _ Hz. lia.
      * rewrite (process_unwritable p w content Hfile Hpos). cbn.
        exists [OpRead p; OpWrite p (update_cdn_versions content).1.1; OpStderr p].
        repeat split; try discriminate.
        exists [OpRead p; OpWrite p (update_cdn_versions content).1.1]. reflexivity.
  - rewrite (process_unreadable p w Hread). cbn.
    exists [OpRead p; OpStderr p]. repeat split; try discriminate.
    exists [OpRead p]. reflexivity.
Qed.

Lemma main_step_listing (sm : summary) (w : world) (p : path) :
  exists ops,
    w_log (main_step (sm, w) p).2 = w_log w ++ ops /\ reads ops = [p]
    /\ w_listing (main_step (sm, w) p).2 = w_listing w.
Proof.
  destruct (process_cases p w) as (ops & Hw & Hr & _).
  exists ops. unfold main_step.
  destruct (process_html_file p w) as [[[ok n] vc] w']. cbn [snd fst] in *.
  destruct (ok && (0 <? n)); cbn [snd]; rewrite Hw; cbn; auto.
Qed.

(** The loop of [main] reads every file of the list, in order. *)
Lemma main_loop_reads (files : list path) :
  forall sm w,
  exists ops,
    w_log (fold_left main_step files (sm, w)).2 = w_log w ++ ops
    /\ reads ops = files.
Proof.
  induction files as [|p files IH]; intros sm w; cbn [fold_left].
  - exists []. rewrite app_nil_r. auto.
  - destruct (main_step_listing sm w p) as (ops1 & H1 & R1 & _).
    destruct (main_step (sm, w) p) as [sm1 w1]. cbn [snd] in *.
    destruct (IH sm1 w1) as (ops2 & H2 & R2).
    exists (ops1 ++ ops2). rewrite H2, H1, <- app_assoc, reads_app, R1, R2. auto.
Qed.

(** C9. [main] exits with a non-zero status exactly when [HTML_DIR] does
    not exist or no file is found.  With at least one file found it exits
    with status 0, having read every file of the list, in order, whatever
    happened to the others.  A file that cannot be read fails; a failing
    file yields [(False, 0, {})], leaves the files as they were, ends with
    a line on the error stream that names its path, and leaves the
    aggregates of the run untouched. *)
Theorem main_exit_status (html_dir : path) (w : world) :
  ((main html_dir w).1.1 <> 0 <-> w_listing w = None \/ w_listing w = Some [])
  /\ (forall files, w_listing w = Some files -> files <> [] ->
        (main html_dir w).1.1 = 0
        /\ exists ops, w_log (main html_dir w).2 = w_log w ++ ops /\ reads ops = files)
  /\ (forall p w0, w_fs w0 !! p ≫= f_text = None ->
        (process_html_file p w0).1.1.1 = false)
  /\ (forall p w0 sm, (process_html_file p w0).1.1.1 = false ->
        (process_html_file p w0).1 = (false, 0, ∅)
        /\ w_fs (process_html_file p w0).2 = w_fs w0
        /\ (exists ops, w_log (process_html_file p w0).2 = w_log w0 ++ ops ++ [OpStderr p])
        /\ (main_step (sm, w0) p).1 = sm).
Proof.
  split; [|split; [|split]].
  - unfold main. destruct (w_listing w) as [[|p files]|].
    + cbn. split; [auto | discriminate].
    + destruct (fold_left main_step (p :: files) (Summary 0 0 ∅, w)).
      cbn. split; [intros H; congruence | intros [?|?]; discriminate].
    + cbn. split; [auto | discriminate].
  - intros files Hl Hne. unfold main. rewrite Hl.
    destruct files as [|p files]; [congruence|].
    destruct (main_loop_reads (p :: files) (Summary 0 0 ∅) w) as (ops & Hlog & Hr).
    destruct (fold_left main_step (p :: files) (Summary 0 0 ∅, w)) as [sm w'].
    cbn [fst snd] in *. split; [reflexivity|]. exists ops. auto.
  - intros p w0 Hread. rewrite (process_unreadable p w0 Hread). reflexivity.
  - intros p w0 sm Hfail.
    destruct (process_cases p w0) as (ops & Hw & _ & Hf & _).
    destruct (Hf Hfail) as (Hres & Hfs & ops' & ->).
    split; [assumption|]. split; [assumption|]. split.
    + exists ops'. rewrite Hw. reflexivity.
    + unfold main_step. destruct (process_html_file p w0) as [[[ok n] vc] w'].
      cbn [fst snd] in *. subst ok. reflexivity.
Qed.

(** One round adds the names of the file that the summary lacks, and
    nothing else. *)
Lemma main_step_changes (sm : summary) (w : world) (p : path) (f : text) :
  all_version_changes (main_step (sm, w) p).1 !! f
  = match all_version_changes sm !! f with
    | Some v => Some v
    | None => (process_html_file p w).1.2 !! f
    end.
Proof.
  destruct (process_cases p w) as (ops & _ & _ & Hfail & Hzero).
  unfold main_step.
  destruct (process_html_file p w) as [[[ok n] vc] w']. cbn [fst snd] in *.
  destruct ok.
  - destruct (Nat.ltb_spec 0 n) as [Hpos|Hz]; cbn [andb fst all_version_changes].
    + apply merge_changes_lookup.
    + rewrite Hzero by (reflexivity || lia). rewrite lookup_empty.
      destruct (all_version_changes sm !! f); reflexivity.
  - destruct (Hfail eq_refl) as (E & _). injection E as -> ->.
    cbn [andb fst]. rewrite lookup_empty.
    destruct (all_version_changes sm !! f); reflexivity.
Qed.

(** An entry of the summary survives the rest of the loop. *)
Lemma main_loop_keeps (files : list path) :
  forall sm w f v,
  all_version_changes sm !! f = Some v ->
  all_version_changes (fold_left main_step files (sm, w)).1 !! f = Some v.
Proof.
  induction files as [|p files IH]; intros sm w f v H; cbn [fold_left]; [assumption|].
  pose proof (main_step_changes sm w p f) as Hstep. rewrite H in Hstep.
  destruct (main_step (sm, w) p) as [sm1 w1]. cbn [fst] in Hstep.
  apply IH. assumption.
Qed.

(** The aggregates that [main] returns are those of its loop. *)
Lemma main_summary (html_dir : path) (w : world) (files : list path) :
  w_listing w = Some files -> files <> [] ->
  (main html_dir w).1.2 = (fold_left main_step files (Summary 0 0 ∅, w)).1.
Proof.
  intros Hl Hne. unfold main. rewrite Hl.
  destruct files as [|p files]; [congruence|].
  destruct (fold_left main_step (p :: files) (Summary 0 0 ∅, w)). reflexivity.
Qed.

(** C6. Duplicate file names are handled in two ways.  Within a content,
    the change count is the number of references, repeats included, while
    the map holds under a file name the record (old, new) of the last
    reference with that name; the file name is what follows the CDN prefix.
    Across files, an entry of the summary is never replaced by a later
    file, and a name that the summary lacks when a file is reached gets the
    record that this file reports: the first file seen wins. *)
Theorem duplicate_filenames_asymmetric :
  (forall content, exists segs,
     Scan content segs
     /\ (update_cdn_versions content).1.2 = length (refs segs)
     /\ (forall pre a post,
           refs segs = pre ++ a :: post ->
           Forall (fun b => filename_of b <> filename_of a) post ->
           (update_cdn_versions content).2 !! filename_of a
           = Some (old_version a, new_version a))
     /\ Forall (fun a => exists stem ext,
                  a_base a = str CDN_URL ++ stem ++ ext
                  /\ filename_of a = stem ++ ext) (refs segs))
  /\ (forall files sm w f v,
        all_version_changes sm !! f = Some v ->
        all_version_changes (fold_left main_step files (sm, w)).1 !! f = Some v)
  /\ (forall files1 p files2 sm w f v,
        let reached := fold_left main_step files1 (sm, w) in
        all_version_changes reached.1 !! f = None ->
        (process_html_file p reached.2).1.2 !! f = Some v ->
        all_version_changes
          (fold_left main_step (files1 ++ p :: files2) (sm, w)).1 !! f = Some v)
  /\ (forall html_dir w files1 p files2 f v,
        w_listing w = Some (files1 ++ p :: files2) ->
        let reached := fold_left main_step files1 (Summary 0 0 ∅, w) in
        all_version_changes reached.1 !! f = None ->
        (process_html_file p reached.2).1.2 !! f = Some v ->
        all_version_changes (main html_dir w).1.2 !! f = Some v).
Proof.
  assert (Hfirst : forall files1 p files2 sm w f v,
        let reached := fold_left main_step files1 (sm, w) in
        all_version_changes reached.1 !! f = None ->
        (process_html_file p reached.2).1.2 !! f = Some v ->
        all_version_changes
          (fold_left main_step (files1 ++ p :: files2) (sm, w)).1 !! f = Some v).
  { intros files1 p files2 sm w f v reached Hnone Hsome.
    rewrite fold_left_app. cbn [fold_left]. fold reached.
    destruct reached as [sm1 w1] eqn:Hreached. cbn [fst snd] in *.
    pose proof (main_step_changes sm1 w1 p f) as Hstep.
    rewrite Hnone, Hsome in Hstep.
    destruct (main_step (sm1, w1) p) as [sm2 w2]. cbn [fst] in Hstep.
    apply main_loop_keeps. assumption. }
  split; [|split; [|split; [exact Hfirst|]]].
  - intros content. destruct (update_cdn_versions_scan content) as (l & HS & E).
    exists l. rewrite E. cbn [fst snd].
    split; [assumption|]. split; [reflexivity|]. split.
    + intros pre a post -> Hpost. apply record_changes_last. assumption.
    + pose proof (Scan_refs_qualifying _ _ HS) as Hq.
      eapply Forall_impl; [exact Hq|]. cbv beta.
      intros a ((stem & ext & Hb & _ & Hstem & Hext) & _).
      exists stem, ext. split; [assumption|].
      apply filename_of_qualifying; assumption.
  - intros files. apply main_loop_keeps.
  - intros html_dir w files1 p files2 f v Hl reached Hnone Hsome.
    rewrite (main_summary html_dir w _ Hl) by (destruct files1; discriminate).
    apply Hfirst; assumption.
Qed.

(** ** Worked inputs *)

Example increment_27 : increment_version (str "1.1.27") = str "1.1.28".
Proof. reflexivity. Qed.

Example increment_9 : increment_version (str "1.1.9") = str "1.1.10".
Proof. reflexivity. Qed.

Example increment_99 : increment_version (str "2.0.99") = str "2.0.100".
Proof. reflexivity. Qed.

Example increment_major_01 : increment_version (str "01.2.3") = str "01.2.04".
Proof. reflexivity. Qed.

Example increment_abc : increment_version (str "abc") = str "abc".
Proof. reflexivity. Qed.

Example update_hero_page :
  update_cdn_versions hero_page
  = (hero_page_updated, 1, {[ str "hero_video.js" := (str "1.1.27", str "1.1.28") ]}).
Proof. vm_compute. reflexivity. Qed.

Example update_twice_page :
  (update_cdn_versions twice_page).1.2 = 2
  /\ (update_cdn_versions twice_page).2
     = {[ str "a.css" := (str "2.0.0", str "2.0.01") ]}.
Proof. split; vm_compute; reflexivity. Qed.

Lemma digit_group_check (s : text) :
  s <> [] -> forallb is_digit s = true -> digit_group s.
Proof.
  intros Hne Hall. split; [assumption|].
  apply List.Forall_forall. intros c Hc.
  rewrite forallb_forall in Hall. apply Hall. assumption.
Qed.

Lemma hero_ref_qualifying : qualifying hero_ref.
Proof.
  split; [|repeat split; try discriminate; repeat constructor].
  exists (str "hero_video"), (str ".js").
  split; [reflexivity|]. split; [discriminate|].
  split; [repeat constructor | left; reflexivity].
Qed.

Lemma hero_page_occurs : occurs_somewhere hero_page.
Proof.
  exists (str "<script src='"), (ref_text hero_ref ++ str "'></script>").
  split; [reflexivity|]. exists hero_ref, (str "'></script>").
  split; [exact hero_ref_qualifying | reflexivity].
Qed.

(** ** The main results on concrete inputs *)

(** The content [bare_extension] is one reference in the specification's
    wording, its file name being [.js]; the pattern wants a character
    before the extension, and the content is returned as it is. *)
Lemma bare_extension_not_rewritten :
  qualifying_as_worded bare_extension_ref
  /\ bare_extension = ref_text bare_extension_ref
  /\ update_cdn_versions bare_extension = (bare_extension, 0, ∅).
Proof.
  split; [|split; [reflexivity | vm_compute; reflexivity]].
  split; [|repeat split; try discriminate; repeat constructor].
  exists (str ".js"). split; [reflexivity|]. split; [repeat constructor|].
  exists [], (str ".js"). split; [reflexivity | left; reflexivity].
Qed.

Lemma is_version_triple_match (s : text) :
  is_version_triple s ->
  exists m, re_match TRIPLE_PATTERN s = Some m /\ m_rest m = [].
Proof.
  intros (major & minor & patch & HM & Hm & Hp & ->).
  rewrite version_of_app_nil, re_match_triple by (assumption || reflexivity).
  eexists. split; reflexivity.
Qed.

(** [1.2.3.4] is not three dot-separated groups, but it begins with
    three, and [increment_version] rewrites it, dropping the fourth. *)
Lemma four_groups_rewritten :
  ~ is_version_triple (str "1.2.3.4")
  /\ increment_version (str "1.2.3.4") = str "1.2.04"
  /\ increment_version (str "1.2.3.4") <> str "1.2.3.4".
Proof.
  split; [|split; [reflexivity | discriminate]].
  intros H. apply is_version_triple_match in H as (m & Hm & Hrest).
  vm_compute in Hm. injection Hm as <-. discriminate.
Qed.

Lemma increment_version_bumps_patch_witness :
  begins_with_triple (str "1.1.9")
  /\ increment_version (str "1.1.9") = str "1.1.10".
Proof.
  assert (H : begins_with_triple (str "1.1.9")).
  { exists (str "1"), (str "1"), (str "9"), [].
    repeat split; try discriminate; repeat constructor. }
  split; [exact H|].
  apply (proj2 (increment_version_bumps_patch (str "1.1.9") H)
           (str "1") (str "1") (str "9") []);
    try reflexivity; apply digit_group_check; (discriminate || reflexivity).
Defined.

Lemma increment_version_unparseable_witness :
  ~ begins_with_triple (str "abc") /\ increment_version (str "abc") = str "abc".
Proof.
  assert (H : ~ begins_with_triple (str "abc")).
  { apply re_match_triple_none. reflexivity. }
  split; [exact H|]. apply (increment_version_unparseable (str "abc") H).
Defined.

Lemma update_cdn_versions_rewrites_all_witness :
  exists segs,
    hero_page = src_text segs
    /\ (update_cdn_versions hero_page).1.1 = new_text segs
    /\ (forall pre a post, segs = pre ++ Ref a :: post ->
          qualifying a /\ heads is_digit (src_text post) = false)
    /\ (forall pre c post, segs = pre ++ Keep c :: post ->
          ~ occurs_at_head (c :: src_text post)).
Proof. exact (update_cdn_versions_rewrites_all hero_page). Defined.

Lemma update_cdn_versions_frame_witness :
  exists segs,
    hero_page = concat (map seg_src segs)
    /\ hero_page_updated = concat (map seg_new segs)
    /\ 1 = length (refs segs)
    /\ exists spre spost,
         segs = spre ++ Ref hero_ref :: spost
         /\ concat (map seg_src spre) = str "<script src='"
         /\ concat (map seg_src spost) = str "'></script>"
         /\ hero_page_updated
            = concat (map seg_new spre)
              ++ (a_base hero_ref ++ str "?v=" ++ str "1.1.28")
              ++ concat (map seg_new spost).
Proof.
  destruct (update_cdn_versions_frame hero_page) as (segs & H1 & H2 & H3 & _ & Hocc & _).
  destruct (Hocc (str "<script src='") hero_ref (str "'></script>")
              hero_ref_qualifying eq_refl eq_refl) as (spre & spost & Hs & Hp & Hq & Hn).
  rewrite update_hero_page in H2, H3, Hn.
  exists segs. split; [exact H1|]. split; [exact H2|]. split; [exact H3|].
  exists spre, spost. auto.
Defined.

Lemma update_cdn_versions_not_idempotent_witness :
  occurs_somewhere hero_page
  /\ (update_cdn_versions (update_cdn_versions hero_page).1.1).1.2
     = (update_cdn_versions hero_page).1.2
  /\ (update_cdn_versions (update_cdn_versions hero_page).1.1).1.1
     <> (update_cdn_versions hero_page).1.1.
Proof.
  split; [exact hero_page_occurs|].
  destruct (update_cdn_versions_not_idempotent hero_page hero_page_occurs)
    as (segs & _ & _ & H2 & H3 & _).
  auto.
Defined.

Lemma update_cdn_versions_no_occurrence_witness :
  ~ occurs_somewhere plain_page
  /\ update_cdn_versions plain_page = (plain_page, 0, ∅).
Proof.
  assert (H : ~ occurs_somewhere plain_page).
  { apply occursb_false. vm_compute. reflexivity. }
  split; [exact H|]. apply (update_cdn_versions_no_occurrence plain_page H).
Defined.


Example main_sample_world :
  let r := main (str HTML_DIR) sample_world in
  r.1.1 = 0
  /\ files_modified r.1.2 = 1 /\ total_changes r.1.2 = 1
  /\ w_log r.2 = [OpRead about_html; OpStderr about_html;
                  OpRead index_html; OpWrite index_html hero_page_updated]
  /\ w_fs r.2 !! index_html = Some (File (Some hero_page_updated) true)
  /\ w_fs r.2 !! about_html = Some (File None true).
Proof. vm_compute. repeat split; reflexivity. Qed.

Lemma duplicate_filenames_asymmetric_witness :
  let seen := Summary 1 1 {[ str "hero_video.js" := (str "1.0.0", str "1.0.01") ]} in
  all_version_changes seen !! str "hero_video.js" = Some (str "1.0.0", str "1.0.01")
  /\ all_version_changes
       (fold_left main_step [about_html; index_html] (seen, sample_world)).1
     !! str "hero_video.js" = Some (str "1.0.0", str "1.0.01").
Proof.
  intros seen.
  assert (H : all_version_changes seen !! str "hero_video.js"
              = Some (str "1.0.0", str "1.0.01")) by (vm_compute; reflexivity).
  split; [exact H|].
  apply (proj1 (proj2 duplicate_filenames_asymmetric)
           [about_html; index_html] seen sample_world _ _ H).
Defined.

Lemma driver_writes_iff_changed_witness :
  w_listing sample_world = Some [about_html; index_html]
  /\ List.NoDup [about_html; index_html]
  /\ exists ops,
       w_log (main (str HTML_DIR) sample_world).2 = ops
       /\ writes ops = [(index_html, hero_page_updated)].
Proof.
  assert (Hnd : List.NoDup [about_html; index_html]).
  { repeat constructor; cbn; intuition discriminate. }
  split; [reflexivity|]. split; [exact Hnd|].
  destruct (proj2 driver_writes_iff_changed (str HTML_DIR) sample_world
              [about_html; index_html] eq_refl Hnd) as (ops & Hlog & Hw & _).
  exists ops. split; [exact Hlog|]. rewrite Hw. vm_compute. reflexivity.
Defined.

Lemma main_exit_status_witness :
  w_listing sample_world = Some [about_html; index_html]
  /\ (main (str HTML_DIR) sample_world).1.1 = 0.
Proof.
  split; [reflexivity|].
  apply (proj1 (proj2 (main_exit_status (str HTML_DIR) sample_world))
           [about_html; index_html]); [reflexivity | discriminate].
Defined.

(** * Further properties of the code *)

(** ** [increment_version] *)

Lemma increment_version_on_triple (major minor patch rest : text) :
  digit_group major -> digit_group minor -> digit_group patch ->
  heads is_digit rest = false ->
  increment_version (version_of major minor patch ++ rest)
  = version_of major minor (format_02d (int patch + 1)).
Proof.
  intros HM Hm Hp Hr. unfold increment_version.
  rewrite re_match_triple by assumption. reflexivity.
Qed.

(** X1. [increment_version] returns its argument exactly on the texts that
    do not begin with a MAJOR.MINOR.PATCH triple: a text that does is never
    returned as it was. *)
Theorem increment_version_fixed_points (s : text) :
  increment_version s = s <-> ~ begins_with_triple s.
Proof.
  split.
  - intros Heq Hb.
    apply triple_maximal in Hb as (major & minor & patch & rest & HM & Hm & Hp & Hr & ->).
    rewrite increment_version_on_triple in Heq by assumption.
    unfold version_of in Heq. repeat rewrite <- app_assoc in Heq.
    do 4 apply app_inv_head in Heq.
    rewrite <- (app_nil_r (format_02d _)) in Heq.
    apply digit_run_unique in Heq as [Heq _];
      [exact (patch_changes _ Heq) | apply format_02d_spec | apply Hp | reflexivity | assumption].
  - intros Hn. unfold increment_version.
    apply re_match_triple_none in Hn. rewrite Hn. reflexivity.
Qed.

(** X2. Applied [n + 1] times to a text that begins with a triple,
    [increment_version] gives the bare triple with the patch number raised
    by [n + 1]: the text after the triple is dropped by the first
    application, and every application adds one. *)
Theorem increment_version_iterated (major minor patch rest : text) (n : nat) :
  digit_group major -> digit_group minor -> digit_group patch ->
  heads is_digit rest = false ->
  Nat.iter (S n) increment_version (version_of major minor patch ++ rest)
  = version_of major minor (format_02d (int patch + S n))
  /\ is_version_triple
       (Nat.iter (S n) increment_version (version_of major minor patch ++ rest)).
Proof.
  intros HM Hm Hp Hr.
  assert (Hiter : Nat.iter (S n) increment_version (version_of major minor patch ++ rest)
                  = version_of major minor (format_02d (int patch + S n))).
  { induction n as [|n IH].
    - cbn [Nat.iter nat_rect]. apply increment_version_on_triple; assumption.
    - change (Nat.iter (S (S n)) increment_version ?x)
        with (increment_version (Nat.iter (S n) increment_version x)).
      rewrite IH, version_of_app_nil.
      rewrite increment_version_on_triple;
        [|assumption | assumption | apply format_02d_spec | reflexivity].
      destruct (format_02d_spec (int patch + S n)) as (_ & -> & _).
      f_equal. f_equal. lia. }
  split; [exact Hiter|]. rewrite Hiter.
  exists major, minor, (format_02d (int patch + S n)).
  refine (conj HM (conj Hm (conj _ eq_refl))). apply format_02d_spec.
Qed.

Lemma increment_version_iterated_witness :
  Nat.iter 3 increment_version (str "1.1.8-beta") = str "1.1.11".
Proof.
  apply (proj1 (increment_version_iterated (str "1") (str "1") (str "8") (str "-beta") 2
                  ltac:(apply digit_group_check; (discriminate || reflexivity))
                  ltac:(apply digit_group_check; (discriminate || reflexivity))
                  ltac:(apply digit_group_check; (discriminate || reflexivity))
                  eq_refl)).
Defined.

(** ** [update_cdn_versions]: the map and the count *)

Lemma record_changes_size (rs : list asset_ref) :
  forall m : gmap text (text * text),
  size (record_changes rs m) <= size m + length rs.
Proof.
  induction rs as [|a rs IH]; intros m; cbn [record_changes fold_left length]; [lia|].
  change (fold_left ?f rs ?x) with (record_changes rs x).
  specialize (IH (<[filename_of a := (old_version a, new_version a)]> m)).
  rewrite map_size_insert in IH.
  destruct (m !! filename_of a); cbn in IH; lia.
Qed.

Lemma record_changes_nonempty (rs : list asset_ref) (m : gmap text (text * text)) :
  rs <> [] -> record_changes rs m <> ∅.
Proof.
  intros Hne.
  destruct (exists_last Hne) as (pre & a & ->).
  intros Hempty.
  pose proof (record_changes_last pre [] a m (List.Forall_nil _)) as Hl.
  rewrite Hempty, lookup_empty in Hl. discriminate.
Qed.

(** Every reference of a segmentation stands in the content. *)
Lemma Scan_ref_occurs (s : text) (l : list segment) (a : asset_ref) :
  Scan s l -> In a (refs l) -> exists pre post, s = pre ++ ref_text a ++ post.
Proof.
  induction 1 as [|c s l Hn HS IH|b rest l Hq Hr HS IH]; cbn [refs]; intros Hin.
  - destruct Hin.
  - destruct (IH Hin) as (pre & post & ->). exists (c :: pre), post. reflexivity.
  - destruct Hin as [->|Hin].
    + exists [], rest. reflexivity.
    + destruct (IH Hin) as (pre & post & ->).
      exists (ref_text b ++ pre), post. rewrite <- app_assoc. reflexivity.
Qed.

(** X3. The map that [update_cdn_versions] returns has at most as many
    entries as changes were counted, and is empty exactly when the count
    is 0.  Each of its keys is a bare file name, without a slash: one or
    more file-name characters and the extension [.js] or [.css]; and the
    CDN prefix, the key, [?v=] and the recorded old version stand together
    somewhere in the content. *)
Theorem update_cdn_versions_map (content : text) :
  let run := update_cdn_versions content in
  size run.2 <= run.1.2
  /\ (run.2 = ∅ <-> run.1.2 = 0)
  /\ (forall filename old new,
        run.2 !! filename = Some (old, new) ->
        (exists stem ext,
           filename = stem ++ ext /\ stem <> []
           /\ Forall (fun c => is_name_char c = true) stem /\ is_extension ext)
        /\ ~ In "/"%char filename
        /\ exists pre post,
             content = pre ++ str CDN_URL ++ filename ++ str "?v=" ++ old ++ post).
Proof.
  destruct (update_cdn_versions_scan content) as (l & HS & E).
  cbv zeta. rewrite E. cbn [fst snd]. split; [|split].
  - pose proof (record_changes_size (refs l) ∅) as H.
    rewrite map_size_empty in H. exact H.
  - split.
    + intros Hempty. destruct (refs l) as [|a rs] eqn:Hrefs; [reflexivity|].
      exfalso. apply (record_changes_nonempty (a :: rs) ∅); [discriminate | assumption].
    + intros Hlen. destruct (refs l); [reflexivity | discriminate].
  - intros filename old new H.
    apply record_changes_lookup in H as [H | (a & Ha & -> & Hv)];
      [rewrite lookup_empty in H; discriminate|].
    injection Hv as -> _.
    pose proof (Scan_refs_qualifying _ _ HS) as Hall.
    rewrite List.Forall_forall in Hall.
    destruct (Hall a Ha) as ((stem & ext & Hb & Hne & Hstem & Hext) & _).
    rewrite (filename_of_qualifying a stem ext Hb Hstem Hext).
    split; [exists stem, ext; auto|]. split.
    + intros Hin. apply in_app_or in Hin as [Hin|Hin].
      * rewrite List.Forall_forall in Hstem. specialize (Hstem _ Hin). discriminate.
      * destruct Hext as [-> | ->]; cbn in Hin; intuition discriminate.
    + destruct (Scan_ref_occurs _ _ a HS Ha) as (pre & post & ->).
      exists pre, post. unfold ref_text. rewrite Hb.
      repeat rewrite <- app_assoc. reflexivity.
Qed.

(** ** [update_cdn_versions]: piecewise, repeated, and where it does nothing *)

Lemma is_digit_name_char (c : ascii) : is_digit c = true -> is_name_char c = true.
Proof.
  intros H. unfold is_name_char, is_word. rewrite H.
  rewrite orb_true_r. reflexivity.
Qed.

Lemma separator_not_name (c : ascii) : is_separator c = true -> is_name_char c = false.
Proof.
  unfold is_separator. intros H. apply andb_prop in H as [H _].
  apply negb_true_iff in H. exact H.
Qed.

Lemma separator_not_digit (c : ascii) : is_separator c = true -> is_digit c = false.
Proof.
  intros H. destruct (is_digit c) eqn:Hd; [|reflexivity].
  pose proof (separator_not_name c H) as Hn.
  rewrite (is_digit_name_char c Hd) in Hn. discriminate.
Qed.

Lemma Forall_name_no_separator (sep : ascii) (w : text) :
  is_separator sep = true -> Forall (fun c => is_name_char c = true) w -> ~ In sep w.
Proof.
  intros Hsep Hw Hin. rewrite List.Forall_forall in Hw.
  pose proof (separator_not_name sep Hsep) as Hn.
  rewrite (Hw sep Hin) in Hn. discriminate.
Qed.

Lemma Forall_digit_name (w : text) :
  Forall (fun c => is_digit c = true) w -> Forall (fun c => is_name_char c = true) w.
Proof.
  intros H. eapply List.Forall_impl; [|exact H]. apply is_digit_name_char.
Qed.

Lemma literal_no_separator (sep : ascii) (lit : text) :
  forallb (fun c => is_name_char c || existsb (Ascii.eqb c) (str ":/?=")) lit = true ->
  is_separator sep = true -> ~ In sep lit.
Proof.
  intros Hlit Hsep Hin. rewrite forallb_forall in Hlit. specialize (Hlit sep Hin).
  unfold is_separator in Hsep. apply andb_prop in Hsep as [H1 H2].
  apply negb_true_iff in H1, H2. rewrite H1, H2 in Hlit. discriminate.
Qed.

(** No separator stands in a qualifying reference. *)
Lemma ref_text_no_separator (a : asset_ref) (sep : ascii) :
  qualifying a -> is_separator sep = true -> ~ In sep (ref_text a).
Proof.
  intros ((stem & ext & Hb & _ & Hstem & Hext) & [_ HM] & [_ Hm] & [_ Hp]) Hsep.
  unfold ref_text, old_version, version_of. rewrite Hb.
  repeat rewrite in_app_iff.
  intros [[H|[H|H]]|[H|[H|[H|[H|[H|H]]]]]].
  - revert H. apply literal_no_separator; [reflexivity | assumption].
  - revert H. apply Forall_name_no_separator; assumption.
  - revert H. apply literal_no_separator; [|assumption].
    destruct Hext as [-> | ->]; reflexivity.
  - revert H. apply literal_no_separator; [reflexivity | assumption].
  - revert H. apply Forall_name_no_separator; [assumption | apply Forall_digit_name; assumption].
  - revert H. apply literal_no_separator; [reflexivity | assumption].
  - revert H. apply Forall_name_no_separator; [assumption | apply Forall_digit_name; assumption].
  - revert H. apply literal_no_separator; [reflexivity | assumption].
  - revert H. apply Forall_name_no_separator; [assumption | apply Forall_digit_name; assumption].
Qed.

(** Segmentations compose across a separator. *)
Lemma Scan_app_sep (sep : ascii) (s1 s2 : text) (l1 l2 : list segment) :
  is_separator sep = true -> Scan s1 l1 -> Scan s2 l2 ->
  Scan (s1 ++ sep :: s2) (l1 ++ Keep sep :: l2).
Proof.
  intros Hsep HS1 HS2.
  induction HS1 as [|c s l Hn HS IH|a rest l Hq Hr HS IH].
  - cbn [app]. constructor; [|assumption].
    intros (a & rest & Hq & E).
    apply (ref_text_no_separator a sep Hq Hsep).
    destruct (qualifying_base_head a Hq) as (u & Hu).
    unfold ref_text in *. rewrite Hu in *. cbn in E. injection E as -> _.
    left. reflexivity.
  - cbn [app]. constructor; [|assumption].
    intros (a & rest & Hq & E). apply Hn.
    rewrite app_comm_cons in E. symmetry in E.
    apply app_eq_app_sep in E as (u' & -> & _);
      [|apply ref_text_no_separator; assumption].
    exists a, u'. auto.
  - rewrite <- app_assoc. cbn [app]. constructor; [assumption| |assumption].
    destruct rest as [|x rest]; [|exact Hr].
    cbn. apply separator_not_digit. assumption.
Qed.

Lemma new_text_app (l1 l2 : list segment) :
  new_text (l1 ++ l2) = new_text l1 ++ new_text l2.
Proof. unfold new_text. rewrite map_app, concat_app. reflexivity. Qed.

Lemma refs_app (l1 l2 : list segment) : refs (l1 ++ l2) = refs l1 ++ refs l2.
Proof.
  induction l1 as [|[c|a] l1 IH]; cbn; [reflexivity | assumption | rewrite IH; reflexivity].
Qed.

Lemma record_changes_union (rs : list asset_ref) :
  forall m : gmap text (text * text),
  record_changes rs m = record_changes rs ∅ ∪ m.
Proof.
  induction rs as [|a rs IH]; intros m; cbn [record_changes fold_left].
  - rewrite (left_id_L ∅ (∪)). reflexivity.
  - change (fold_left ?f rs ?x) with (record_changes rs x).
    rewrite (IH (<[_ := _]> m)), (IH (<[_ := _]> ∅)).
    rewrite (insert_union_singleton_l m), insert_empty.
    rewrite (assoc_L (∪)). reflexivity.
Qed.

(** The result of [update_cdn_versions], read off a segmentation. *)
Lemma update_cdn_versions_of_scan (s : text) (l : list segment) :
  Scan s l ->
  update_cdn_versions s = (new_text l, length (refs l), record_changes (refs l) ∅).
Proof.
  intros HS. destruct (update_cdn_versions_scan s) as (l' & HS' & ->).
  rewrite (Scan_functional _ _ _ HS' HS). reflexivity.
Qed.

(** X4. A content can be rewritten piece by piece.  Across a character
    that cannot stand in a reference (a space, a line break, a quote, an
    angle bracket, ...) the updated content is the two updated pieces
    around that character, the counts add up, and the maps are joined,
    the later piece winning on a file name that both hold. *)
Theorem update_cdn_versions_piecewise (sep : ascii) (s1 s2 : text) :
  is_separator sep = true ->
  update_cdn_versions (s1 ++ sep :: s2)
  = ((update_cdn_versions s1).1.1 ++ sep :: (update_cdn_versions s2).1.1,
     (update_cdn_versions s1).1.2 + (update_cdn_versions s2).1.2,
     (update_cdn_versions s2).2 ∪ (update_cdn_versions s1).2).
Proof.
  intros Hsep.
  destruct (update_cdn_versions_scan s1) as (l1 & HS1 & ->).
  destruct (update_cdn_versions_scan s2) as (l2 & HS2 & ->).
  rewrite (update_cdn_versions_of_scan _ _ (Scan_app_sep sep s1 s2 l1 l2 Hsep HS1 HS2)).
  cbn [fst snd].
  rewrite new_text_app, refs_app, length_app, record_changes_app.
  cbn [refs]. rewrite (record_changes_union (refs l2) (record_changes (refs l1) ∅)).
  reflexivity.
Qed.

Lemma update_cdn_versions_piecewise_witness :
  is_separator "010"%char = true
  /\ (update_cdn_versions (hero_page ++ "010"%char :: twice_page)).1.2 = 3.
Proof.
  split; [reflexivity|].
  rewrite (update_cdn_versions_piecewise "010"%char hero_page twice_page eq_refl).
  vm_compute. reflexivity.
Defined.

Lemma rerun_S (n : nat) (content : text) :
  rerun (S n) content = (update_cdn_versions (rerun n content)).1.1.
Proof. reflexivity. Qed.

Lemma iter_bump_seg_refs (n : nat) (l : list segment) :
  refs (map (Nat.iter n bump_seg) l) = map (Nat.iter n bump) (refs l).
Proof.
  induction n as [|n IH] in l |- *.
  - cbn. rewrite !map_id. reflexivity.
  - change (map (Nat.iter (S n) bump_seg) l)
      with (map (fun sg => bump_seg (Nat.iter n bump_seg sg)) l).
    rewrite <- (map_map (Nat.iter n bump_seg) bump_seg), refs_bump, IH, map_map.
    reflexivity.
Qed.

(** The segmentation after [n] runs. *)
Lemma Scan_rerun (n : nat) (s : text) (l : list segment) :
  Scan s l -> Scan (rerun n s) (map (Nat.iter n bump_seg) l).
Proof.
  intros HS. induction n as [|n IH].
  - cbn. rewrite map_id. exact HS.
  - rewrite rerun_S, (update_cdn_versions_of_scan _ _ IH). cbn [fst].
    change (map (Nat.iter (S n) bump_seg) l)
      with (map (fun sg => bump_seg (Nat.iter n bump_seg sg)) l).
    rewrite <- (map_map (Nat.iter n bump_seg) bump_seg).
    exact (Scan_bump _ _ IH).
Qed.

Lemma iter_bump (n : nat) (a : asset_ref) :
  a_base (Nat.iter n bump a) = a_base a
  /\ a_major (Nat.iter n bump a) = a_major a
  /\ a_minor (Nat.iter n bump a) = a_minor a
  /\ int (a_patch (Nat.iter n bump a)) = int (a_patch a) + n.
Proof.
  induction n as [|n (Hb & HM & Hm & Hp)]; [cbn; auto with arith|].
  change (Nat.iter (S n) bump a) with (bump (Nat.iter n bump a)).
  rewrite bump_patch, Hp. cbn [bump a_base a_major a_minor].
  repeat split; try assumption. lia.
Qed.

(** X5. However often the rewriter is run on its own output, it finds the
    same references each time: run [n + 1] counts as many changes as the
    first run, and after [n] runs every reference has its base, major and
    minor groups as in the original content and a patch number that is the
    original one plus [n]. *)
Theorem update_cdn_versions_rerun (content : text) (n : nat) :
  exists segs,
    Scan content segs
    /\ Scan (rerun n content) (map (Nat.iter n bump_seg) segs)
    /\ (update_cdn_versions (rerun n content)).1.2 = (update_cdn_versions content).1.2
    /\ Forall (fun a =>
         a_base (Nat.iter n bump a) = a_base a
         /\ a_major (Nat.iter n bump a) = a_major a
         /\ a_minor (Nat.iter n bump a) = a_minor a
         /\ int (a_patch (Nat.iter n bump a)) = int (a_patch a) + n) (refs segs).
Proof.
  destruct (update_cdn_versions_scan content) as (l & HS & E).
  exists l. split; [assumption|].
  pose proof (Scan_rerun n content l HS) as HSn.
  split; [assumption|]. split.
  - rewrite (update_cdn_versions_of_scan _ _ HSn), E. cbn [fst snd].
    rewrite iter_bump_seg_refs. apply length_map.
  - apply List.Forall_forall. intros a _. apply iter_bump.
Qed.

Lemma starts_with_spec (needle s : text) :
  starts_with needle s = true <-> exists post, s = needle ++ post.
Proof.
  revert s. induction needle as [|c needle IH]; intros s; cbn.
  - split; [intros _; exists s; reflexivity | reflexivity].
  - destruct s as [|x s]; [split; [discriminate | intros (post & E); discriminate]|].
    rewrite andb_true_iff, IH. split.
    + intros (Hx & post & ->). apply Ascii.eqb_eq in Hx as ->. exists post. reflexivity.
    + intros (post & E). injection E as -> ->. split; [apply Ascii.eqb_refl | eauto].
Qed.

Lemma containsb_false (needle hay : text) :
  containsb needle hay = false -> ~ contains needle hay.
Proof.
  induction hay as [|x hay IH]; cbn [containsb]; intros Hb (pre & post & E);
    apply orb_false_elim in Hb as [Hs Hb].
  - destruct pre; [|discriminate]. cbn in E.
    assert (starts_with needle [] = true) by (apply starts_with_spec; eauto).
    congruence.
  - destruct pre as [|y pre]; cbn in E.
    + assert (starts_with needle (x :: hay) = true) by (apply starts_with_spec; eauto).
      congruence.
    + injection E as -> ->. apply (IH Hb). exists pre, post. reflexivity.
Qed.

Lemma occurs_somewhere_contains (content : text) :
  occurs_somewhere content -> contains (str CDN_URL) content.
Proof.
  intros (pre & post & -> & a & rest & ((stem & ext & Hb & _) & _) & ->).
  exists pre, (stem ++ ext ++ str "?v=" ++ old_version a ++ rest).
  unfold ref_text. rewrite Hb. repeat rewrite <- app_assoc. reflexivity.
Qed.

(** X6. A content in which the CDN prefix does not occur is returned as
    it is, with a count of 0 and an empty map, and a file with such a
    content is read and never written, whether it is writable or not. *)
Theorem no_prefix_no_change (content : text) :
  ~ contains (str CDN_URL) content ->
  update_cdn_versions content = (content, 0, ∅)
  /\ forall (p : path) (w : world) (writable : bool),
       w_fs w !! p = Some (File (Some content) writable) ->
       process_html_file p w = ((true, 0, ∅), log (OpRead p) w).
Proof.
  intros Hno.
  assert (Hnone : ~ occurs_somewhere content)
    by (intros H; apply Hno, occurs_somewhere_contains, H).
  assert (E : update_cdn_versions content = (content, 0, ∅)).
  { destruct (update_cdn_versions_scan content) as (l & HS & ->).
    pose proof (Scan_no_occurrence _ _ HS Hnone) as Hrefs.
    rewrite (Scan_without_refs _ _ HS Hrefs), Hrefs. reflexivity. }
  split; [exact E|].
  intros p w writable Hfile.
  apply process_unchanged with (content := content).
  - rewrite Hfile. reflexivity.
  - rewrite E. reflexivity.
Qed.

Lemma no_prefix_no_change_witness :
  ~ contains (str CDN_URL) plain_page
  /\ update_cdn_versions plain_page = (plain_page, 0, ∅).
Proof.
  assert (H : ~ contains (str CDN_URL) plain_page).
  { apply containsb_false. vm_compute. reflexivity. }
  split; [exact H|]. apply (proj1 (no_prefix_no_change plain_page H)).
Defined.

(** ** [process_html_file] *)

(** What [process_html_file] reports and leaves in a file depends on that
    file alone. *)
Lemma process_local (p : path) (w w' : world) :
  w_fs w' !! p = w_fs w !! p ->
  (process_html_file p w').1 = (process_html_file p w).1
  /\ w_fs (process_html_file p w').2 !! p = w_fs (process_html_file p w).2 !! p.
Proof.
  intros H. unfold process_html_file, read_file. rewrite H.
  destruct (w_fs w !! p ≫= f_text) as [content|]; [|cbn; auto].
  destruct (update_cdn_versions content) as [[updated n] changes].
  destruct (0 <? n); [|cbn; auto].
  unfold write_file. cbn [log w_fs]. rewrite H.
  destruct (w_fs w !! p) as [[t [|]]|] eqn:Hfile; cbn; rewrite ?lookup_insert_eq;
    split; congruence.
Qed.

(** The four outcomes of [process_html_file], by what it reports. *)
Lemma process_report (p : path) (w : world) :
  (reported_count w p = 0
   /\ (process_html_file p w).1.2 = ∅
   /\ w_fs (process_html_file p w).2 = w_fs w)
  \/ (exists content,
        w_fs w !! p = Some (File (Some content) true)
        /\ 0 < (update_cdn_versions content).1.2
        /\ (process_html_file p w).1
           = (true, (update_cdn_versions content).1.2, (update_cdn_versions content).2)
        /\ w_fs (process_html_file p w).2
           = <[p := File (Some (update_cdn_versions content).1.1) true]> (w_fs w)).
Proof.
  unfold reported_count.
  destruct (w_fs w !! p ≫= f_text) as [content|] eqn:Hread.
  - destruct (Nat.eq_0_gt_0_cases (update_cdn_versions content).1.2) as [Hz|Hpos].
    + left. rewrite (process_unchanged p w content Hread Hz). auto.
    + destruct (w_fs w !! p) as [[[c|] [|]]|] eqn:Hfile; cbn in Hread; try discriminate;
        injection Hread as ->.
      * right. exists content. rewrite (process_written p w content Hfile Hpos). auto.
      * left. rewrite (process_unwritable p w content Hfile Hpos). auto.
  - left. rewrite (process_unreadable p w Hread). auto.
Qed.

Lemma reported_count_success (p : path) (w : world) :
  0 < reported_count w p -> (process_html_file p w).1.1.1 = true.
Proof.
  intros Hpos. destruct (process_report p w) as [(Hz & _)|(content & _ & _ & E & _)].
  - lia.
  - rewrite E. reflexivity.
Qed.


(** ** The loop of [main] *)



Lemma update_changes_text (content : text) :
  0 < (update_cdn_versions content).1.2 -> (update_cdn_versions content).1.1 <> content.
Proof.
  destruct (update_cdn_versions_scan content) as (l & HS & ->). cbn [fst snd].
  intros Hpos. apply (Scan_with_refs _ _ HS).
  destruct (refs l); [cbn in Hpos; lia | discriminate].
Qed.

Lemma rerun_count (n : nat) (content : text) :
  (update_cdn_versions (rerun n content)).1.2 = (update_cdn_versions content).1.2.
Proof.
  destruct (update_cdn_versions_scan content) as (l & HS & E).
  rewrite (update_cdn_versions_of_scan _ _ (Scan_rerun n content l HS)), E. cbn [fst snd].
  rewrite iter_bump_seg_refs. apply length_map.
Qed.

(** One round of the loop, by the count that the file reports. *)
Lemma main_step_report (sm : summary) (w : world) (p : path) :
  main_step (sm, w) p
  = (if 0 <? reported_count w p
     then Summary (total_changes sm + reported_count w p) (files_modified sm + 1)
            (merge_changes (all_version_changes sm) (process_html_file p w).1.2)
     else sm,
     (process_html_file p w).2).
Proof.
  pose proof (reported_count_success p w) as Hok.
  unfold main_step, reported_count in *.
  destruct (process_html_file p w) as [[[ok n] vc] w']. cbn [fst snd] in *.
  destruct (Nat.ltb_spec 0 n) as [Hpos|Hz].
  - rewrite (Hok Hpos). reflexivity.
  - rewrite andb_false_r. reflexivity.
Qed.




Lemma main_loop_listing (files : list path) :
  forall sm w, w_listing (fold_left main_step files (sm, w)).2 = w_listing w.
Proof.
  induction files as [|q l IH]; intros sm w; cbn [fold_left]; [reflexivity|].
  destruct (main_step_listing sm w q) as (ops & _ & _ & Hq).
  destruct (main_step (sm, w) q) as [sm1 w1]. cbn [snd] in Hq.
  rewrite IH. exact Hq.
Qed.

Lemma main_listing (html_dir : path) (w : world) :
  w_listing (main html_dir w).2 = w_listing w.
Proof.
  unfold main. destruct (w_listing w) as [[|p files]|] eqn:Hl.
  - exact Hl.
  - pose proof (main_loop_listing (p :: files) (Summary 0 0 ∅) w) as H.
    destruct (fold_left main_step (p :: files) (Summary 0 0 ∅, w)). cbn [snd] in *.
    rewrite H. exact Hl.
  - exact Hl.
Qed.


Lemma reported_count_local (p : path) (w w' : world) :
  w_fs w' !! p = w_fs w !! p -> reported_count w' p = reported_count w p.
Proof.
  intros H. unfold reported_count. rewrite (proj1 (process_local p w w' H)). reflexivity.
Qed.

(** Over distinct files the loop treats each file as if it were alone. *)
Lemma main_loop_independent (files : list path) :
  forall sm w, List.NoDup files ->
  let r := fold_left main_step files (sm, w) in
  total_changes r.1 = total_changes sm + list_sum (map (reported_count w) files)
  /\ files_modified r.1
     = files_modified sm
       + length (List.filter (fun p => 0 <? reported_count w p) files)
  /\ (forall q, In q files -> w_fs r.2 !! q = w_fs (process_html_file q w).2 !! q)
  /\ (forall q, ~ In q files -> w_fs r.2 !! q = w_fs w !! q).
Proof.
  induction files as [|p files IH]; intros sm w Hnd; cbv zeta; cbn [fold_left].
  - cbn. split; [lia|]. split; [lia|]. split; [intros q [] | reflexivity].
  - inversion Hnd as [|? ? Hp Hnd']; subst.
    rewrite main_step_report.
    set (sm1 := if 0 <? reported_count w p then _ else sm).
    set (w1 := (process_html_file p w).2).
    assert (Hother : forall q, q <> p -> w_fs w1 !! q = w_fs w !! q).
    { destruct (process_effects p w) as (ops & _ & _ & _ & H & _). exact H. }
    assert (Hrest : forall q, In q files -> w_fs w1 !! q = w_fs w !! q).
    { intros q Hq. apply Hother. intros ->. contradiction. }
    destruct (IH sm1 w1 Hnd') as (Htc & Hfm & Hin & Hout).
    rewrite Htc, Hfm.
    rewrite (map_ext_in (reported_count w1) (reported_count w) files)
      by (intros q Hq; apply reported_count_local, Hrest, Hq).
    rewrite (filter_ext_in (fun q => 0 <? reported_count w1 q)
               (fun q => 0 <? reported_count w q) files)
      by (intros q Hq; rewrite (reported_count_local q w w1 (Hrest q Hq)); reflexivity).
    unfold list_sum. cbn [map fold_right List.filter].
    split; [|split; [|split]].
    + subst sm1. destruct (Nat.ltb_spec 0 (reported_count w p));
        cbn [total_changes]; lia.
    + subst sm1. destruct (Nat.ltb_spec 0 (reported_count w p));
        cbn [files_modified length]; lia.
    + intros q [->|Hq].
      * rewrite (Hout q Hp). reflexivity.
      * rewrite (Hin q Hq). apply (process_local q w w1 (Hrest q Hq)).
    + intros q Hq. rewrite Hout by (intros H; apply Hq; right; exact H).
      apply Hother. intros ->. apply Hq. left. reflexivity.
Qed.

Lemma main_independent (html_dir : path) (w : world) (files : list path) :
  w_listing w = Some files -> List.NoDup files ->
  let r := main html_dir w in
  total_changes r.1.2 = list_sum (map (reported_count w) files)
  /\ files_modified r.1.2
     = length (List.filter (fun p => 0 <? reported_count w p) files)
  /\ (forall q, In q files -> w_fs r.2 !! q = w_fs (process_html_file q w).2 !! q)
  /\ (forall q, ~ In q files -> w_fs r.2 !! q = w_fs w !! q).
Proof.
  intros Hl Hnd. cbv zeta. unfold main. rewrite Hl.
  destruct files as [|p files].
  - cbn. split; [reflexivity|]. split; [reflexivity|].
    split; [intros q [] | reflexivity].
  - pose proof (main_loop_independent (p :: files) (Summary 0 0 ∅) w Hnd) as H.
    cbv zeta in H.
    destruct (fold_left main_step (p :: files) (Summary 0 0 ∅, w)) as [sm w'].
    exact H.
Qed.



(** Processing a file again reports the same count. *)
Lemma reprocess_count (p : path) (w w' : world) :
  w_fs w' !! p = w_fs (process_html_file p w).2 !! p ->
  reported_count w' p = reported_count w p.
Proof.
  intros H.
  destruct (process_report p w) as [(_ & _ & Hfs)|(content & Hfile & Hpos & E & Hfs)].
  - apply reported_count_local. rewrite H, Hfs. reflexivity.
  - rewrite Hfs, lookup_insert_eq in H.
    pose proof (rerun_count 1 content) as Hc.
    change (rerun 1 content) with (update_cdn_versions content).1.1 in Hc.
    assert (Hpos' : 0 < (update_cdn_versions (update_cdn_versions content).1.1).1.2) by lia.
    unfold reported_count.
    rewrite (process_written p w' _ H Hpos'), E. cbn [fst snd]. exact Hc.
Qed.

(** X10. The script is not idempotent either.  Run a second time over
    the same distinct files, [main] exits with the same status and returns
    the same total of changes and the same number of modified files as the
    first time; and if the first run modified a file, the second leaves
    the files different again. *)
Theorem main_run_twice (html_dir : path) (w : world) (files : list path) :
  w_listing w = Some files -> List.NoDup files ->
  let first := main html_dir w in
  let second := main html_dir first.2 in
  second.1.1 = first.1.1
  /\ total_changes second.1.2 = total_changes first.1.2
  /\ files_modified second.1.2 = files_modified first.1.2
  /\ (0 < files_modified first.1.2 -> w_fs second.2 <> w_fs first.2).
Proof.
  intros Hl Hnd. cbv zeta.
  pose proof (main_listing html_dir w) as Hl1. rewrite Hl in Hl1.
  destruct (main_independent html_dir w files Hl Hnd) as (Htc & Hfm & Hin & _).
  destruct (main_independent html_dir (main html_dir w).2 files Hl1 Hnd)
    as (Htc2 & Hfm2 & Hin2 & _).
  assert (Hsame : forall q, In q files ->
            reported_count (main html_dir w).2 q = reported_count w q).
  { intros q Hq. apply reprocess_count, Hin, Hq. }
  assert (Hfm' : files_modified (main html_dir (main html_dir w).2).1.2
                 = files_modified (main html_dir w).1.2).
  { rewrite Hfm2, Hfm. f_equal. apply filter_ext_in.
    intros q Hq. rewrite (Hsame q Hq). reflexivity. }
  split; [|split; [|split]].
  - unfold main at 1 3. rewrite Hl1, Hl. destruct files as [|p files]; [reflexivity|].
    destruct (fold_left main_step (p :: files) (Summary 0 0 ∅, (main html_dir w).2)).
    destruct (fold_left main_step (p :: files) (Summary 0 0 ∅, w)). reflexivity.
  - rewrite Htc2, Htc. f_equal. apply map_ext_in. exact Hsame.
  - exact Hfm'.
  - intros Hpos Hfs. rewrite <- Hfm', Hfm2 in Hpos.
    destruct (List.filter (fun p => 0 <? reported_count (main html_dir w).2 p) files)
      as [|q l] eqn:Hf; [cbn in Hpos; lia|].
    assert (Hq : In q (List.filter
                        (fun p => 0 <? reported_count (main html_dir w).2 p) files))
      by (rewrite Hf; left; reflexivity).
    apply filter_In in Hq as [Hq Hc]. apply Nat.ltb_lt in Hc.
    destruct (process_report q (main html_dir w).2)
      as [(Hz & _)|(content & Hfile & Hc' & _ & Hfs')]; [lia|].
    pose proof (Hin2 q Hq) as Hfinal.
    rewrite Hfs, Hfs', lookup_insert_eq, Hfile in Hfinal.
    injection Hfinal as Heq. apply (update_changes_text content Hc'). symmetry. exact Heq.
Qed.

Lemma main_run_twice_witness :
  w_listing sample_world = Some [about_html; index_html]
  /\ List.NoDup [about_html; index_html]
  /\ total_changes (main (str HTML_DIR) (main (str HTML_DIR) sample_world).2).1.2
     = total_changes (main (str HTML_DIR) sample_world).1.2.
Proof.
  assert (Hnd : List.NoDup [about_html; index_html]).
  { repeat constructor; cbn; intuition discriminate. }
  split; [reflexivity|]. split; [exact Hnd|].
  apply (main_run_twice (str HTML_DIR) sample_world [about_html; index_html] eq_refl Hnd).
Defined.

(** ** Sequences in order *)

Section LexOrder.
Context {A : Type} (ltb eqb : A -> A -> bool).
Hypothesis eqb_eq : forall x y, eqb x y = true <-> x = y.
Hypothesis ltb_irrefl : forall x, ltb x x = false.
Hypothesis ltb_trans : forall x y z, ltb x y = true -> ltb y z = true -> ltb x z = true.
Hypothesis ltb_total : forall x y, ltb x y = false -> ltb y x = false -> x = y.

Lemma lex_ltb_irrefl (a : list A) : lex_ltb ltb eqb a a = false.
Proof using eqb_eq ltb_irrefl.
  induction a as [|x a IH]; cbn; [reflexivity|].
  rewrite ltb_irrefl. rewrite (proj2 (eqb_eq x x) eq_refl). exact IH.
Qed.

Lemma lex_ltb_trans (a : list A) :
  forall b c, lex_ltb ltb eqb a b = true -> lex_ltb ltb eqb b c = true ->
  lex_ltb ltb eqb a c = true.
Proof using eqb_eq ltb_irrefl ltb_trans.
  induction a as [|x a IH]; intros [|y b] [|z c] Hab Hbc; cbn in *;
    try discriminate; try reflexivity.
  destruct (ltb x y) eqn:Hxy.
  - destruct (ltb y z) eqn:Hyz.
    + rewrite (ltb_trans x y z Hxy Hyz). reflexivity.
    + destruct (eqb y z) eqn:Eyz; [|discriminate].
      apply eqb_eq in Eyz as <-. rewrite Hxy. reflexivity.
  - destruct (eqb x y) eqn:Exy; [|discriminate].
    apply eqb_eq in Exy as <-.
    destruct (ltb x z); [reflexivity|].
    destruct (eqb x z); [|discriminate].
    eapply IH; eassumption.
Qed.

Lemma lex_ltb_total (a : list A) :
  forall b, lex_ltb ltb eqb a b = false -> lex_ltb ltb eqb b a = false -> a = b.
Proof using eqb_eq ltb_total.
  induction a as [|x a IH]; intros [|y b] Hab Hba; cbn in *;
    try discriminate; try reflexivity.
  destruct (ltb x y) eqn:Hxy; [discriminate|].
  destruct (ltb y x) eqn:Hyx; [discriminate|].
  pose proof (ltb_total x y Hxy Hyx) as <-.
  rewrite (proj2 (eqb_eq x x) eq_refl) in *.
  f_equal. apply IH; assumption.
Qed.
End LexOrder.

Lemma char_ltb_irrefl (x : ascii) : char_ltb x x = false.
Proof. apply Nat.ltb_irrefl. Qed.

Lemma char_ltb_trans (x y z : ascii) :
  char_ltb x y = true -> char_ltb y z = true -> char_ltb x z = true.
Proof. unfold char_ltb. rewrite !Nat.ltb_lt. lia. Qed.

Lemma char_ltb_total (x y : ascii) :
  char_ltb x y = false -> char_ltb y x = false -> x = y.
Proof.
  unfold char_ltb. rewrite !Nat.ltb_ge. intros H1 H2.
  rewrite <- (ascii_nat_embedding x), <- (ascii_nat_embedding y). f_equal. lia.
Qed.

Lemma text_eqb_eq (s t : text) : text_eqb s t = true <-> s = t.
Proof. unfold text_eqb. apply bool_decide_eq_true. Qed.

Lemma text_ltb_irrefl (s : text) : text_ltb s s = false.
Proof. apply lex_ltb_irrefl; [apply Ascii.eqb_eq | apply char_ltb_irrefl]. Qed.

Lemma text_ltb_trans (s t u : text) :
  text_ltb s t = true -> text_ltb t u = true -> text_ltb s u = true.
Proof.
  apply lex_ltb_trans; [apply Ascii.eqb_eq | apply char_ltb_irrefl | apply char_ltb_trans].
Qed.

Lemma text_ltb_total (s t : text) :
  text_ltb s t = false -> text_ltb t s = false -> s = t.
Proof. apply lex_ltb_total; [apply Ascii.eqb_eq | apply char_ltb_total]. Qed.

Lemma path_ltb_irrefl (p : fs_path) : path_ltb p p = false.
Proof. apply lex_ltb_irrefl; [apply text_eqb_eq | apply text_ltb_irrefl]. Qed.

Lemma path_ltb_trans (p q r : fs_path) :
  path_ltb p q = true -> path_ltb q r = true -> path_ltb p r = true.
Proof.
  apply lex_ltb_trans; [apply text_eqb_eq | apply text_ltb_irrefl | apply text_ltb_trans].
Qed.

Lemma path_ltb_total (p q : fs_path) :
  path_ltb p q = false -> path_ltb q p = false -> p = q.
Proof. apply lex_ltb_total; [apply text_eqb_eq | apply text_ltb_total]. Qed.

(** Not greater is transitive: the order is total. *)
Lemma path_not_gt_trans (p q r : fs_path) :
  path_ltb q p = false -> path_ltb r q = false -> path_ltb r p = false.
Proof.
  intros Hqp Hrq. destruct (path_ltb r p) eqn:Hrp; [|reflexivity].
  destruct (path_ltb p q) eqn:Hpq.
  - rewrite (path_ltb_trans r p q Hrp Hpq) in Hrq. discriminate.
  - pose proof (path_ltb_total p q Hpq Hqp) as <-. congruence.
Qed.

(** ** [sorted] *)

Lemma insert_sorted_perm {A} (ltb : A -> A -> bool) (x : A) (l : list A) :
  Permutation (insert_sorted ltb x l) (x :: l).
Proof.
  induction l as [|y l IH]; cbn; [reflexivity|].
  destruct (ltb y x); [|reflexivity].
  rewrite IH. apply perm_swap.
Qed.

Lemma sorted_perm {A} (ltb : A -> A -> bool) (l : list A) :
  Permutation (sorted ltb l) l.
Proof.
  induction l as [|x l IH]; cbn; [reflexivity|].
  change (fold_right (insert_sorted ltb) [] l) with (sorted ltb l).
  rewrite insert_sorted_perm, IH. reflexivity.
Qed.

Lemma insert_sorted_paths (x : fs_path) (l : list fs_path) :
  StronglySorted (fun p q => path_ltb q p = false) l ->
  StronglySorted (fun p q => path_ltb q p = false) (insert_sorted path_ltb x l).
Proof.
  induction 1 as [|y l Hl IH Hy]; cbn.
  - repeat constructor.
  - destruct (path_ltb y x) eqn:Hyx.
    + constructor; [assumption|].
      eapply Permutation_Forall; [symmetry; apply insert_sorted_perm|].
      constructor; [|assumption].
      destruct (path_ltb x y) eqn:Hxy; [|reflexivity].
      pose proof (path_ltb_irrefl y) as Hirr.
      rewrite (path_ltb_trans y x y Hyx Hxy) in Hirr. discriminate.
    + constructor; [constructor; assumption|].
      constructor; [assumption|].
      eapply List.Forall_impl; [|exact Hy]. cbv beta.
      intros z Hz. apply (path_not_gt_trans x y z); assumption.
Qed.

Lemma sorted_paths (l : list fs_path) :
  StronglySorted (fun p q => path_ltb q p = false) (sorted path_ltb l).
Proof.
  induction l as [|x l IH]; cbn; [constructor|].
  apply insert_sorted_paths. exact IH.
Qed.

(** ** [fnmatch], [rglob] and [find_html_files] *)

Lemma fnmatch_literal (lit : text) :
  Forall (fun c => c <> "*"%char) lit ->
  forall name, fnmatch lit name = true <-> name = lit.
Proof.
  induction 1 as [|c lit Hc Hlit IH]; intros name; cbn.
  - destruct name; [tauto | split; discriminate].
  - destruct (Ascii.eqb_spec c "*") as [->|_]; [congruence|].
    destruct name as [|x name]; [split; discriminate|].
    rewrite andb_true_iff, IH, Ascii.eqb_eq. split.
    + intros [-> ->]. reflexivity.
    + intros E. injection E as -> ->. auto.
Qed.

Lemma fnmatch_star (pattern name : text) :
  fnmatch ("*"%char :: pattern) name = true
  <-> exists pre post, name = pre ++ post /\ fnmatch pattern post = true.
Proof.
  cbn [fnmatch]. rewrite Ascii.eqb_refl.
  induction name as [|x name IH].
  - rewrite orb_false_r. split.
    + intros H. exists [], []. auto.
    + intros (pre & post & E & H). symmetry in E.
      apply app_eq_nil in E as [_ ->]. exact H.
  - rewrite orb_true_iff, IH. split.
    + intros [H|(pre & post & -> & H)].
      * exists [], (x :: name). auto.
      * exists (x :: pre), post. auto.
    + intros ([|y pre] & post & E & H).
      * left. cbn in E. rewrite E. exact H.
      * right. cbn in E. injection E as -> ->. exists pre, post. auto.
Qed.

(** The pattern built for [.html] accepts the names that end in it. *)
Lemma fnmatch_html (p : fs_path) :
  fnmatch ("*"%char :: str ".html") (List.last p []) = true <-> html_name p.
Proof.
  rewrite fnmatch_star. unfold html_name. split.
  - intros (pre & post & E & H).
    apply fnmatch_literal in H; [|repeat constructor; discriminate].
    exists pre. rewrite E, H. reflexivity.
  - intros (stem & E). exists stem, (str ".html"). split; [exact E|].
    apply fnmatch_literal; [repeat constructor; discriminate | reflexivity].
Qed.

Lemma find_html_files_perm (entries : list fs_path) :
  Permutation (find_html_files entries)
    (List.filter (fun p => fnmatch ("*"%char :: str ".html") (List.last p [])) entries).
Proof.
  unfold find_html_files, HTML_EXTENSIONS, rglob. cbn [flat_map].
  rewrite app_nil_r. apply sorted_perm.
Qed.

Lemma find_html_files_In (entries : list fs_path) (p : fs_path) :
  In p (find_html_files entries) <-> In p entries /\ html_name p.
Proof.
  split.
  - intros H. apply (Permutation_in _ (find_html_files_perm entries)) in H.
    apply filter_In in H as [H1 H2]. split; [exact H1 | apply fnmatch_html, H2].
  - intros [H1 H2].
    apply (Permutation_in _ (Permutation_sym (find_html_files_perm entries))).
    apply filter_In. split; [exact H1 | apply fnmatch_html, H2].
Qed.

Lemma find_html_files_NoDup (entries : list fs_path) :
  List.NoDup entries -> List.NoDup (find_html_files entries).
Proof.
  intros H. eapply Permutation_NoDup; [symmetry; apply find_html_files_perm|].
  apply List.NoDup_filter. exact H.
Qed.

Lemma sorted_strict (l : list fs_path) :
  StronglySorted (fun p q => path_ltb q p = false) l -> List.NoDup l ->
  StronglySorted (fun p q => path_ltb p q = true) l.
Proof.
  induction 1 as [|x l Hl IH Hx]; intros Hnd; [constructor|].
  inversion Hnd as [|? ? Hnin Hnd']; subst.
  constructor; [apply IH; assumption|].
  rewrite List.Forall_forall in *. intros y Hy.
  destruct (path_ltb x y) eqn:Hxy; [reflexivity|].
  exfalso. apply Hnin. rewrite (path_ltb_total x y Hxy (Hx y Hy)). exact Hy.
Qed.

(** X11. [find_html_files] returns the entries below the directory whose
    name ends in [.html], and no others, sorted in the order of paths:
    no path is followed, anywhere later in the list, by a smaller one.
    When the walk meets every entry once, the result holds every such
    entry once, in strictly increasing order. *)
Theorem find_html_files_sorted (entries : list fs_path) :
  (forall p, In p (find_html_files entries) <-> In p entries /\ html_name p)
  /\ StronglySorted (fun p q => path_ltb q p = false) (find_html_files entries)
  /\ (List.NoDup entries ->
      List.NoDup (find_html_files entries)
      /\ StronglySorted (fun p q => path_ltb p q = true) (find_html_files entries)).
Proof.
  split; [apply find_html_files_In|].
  assert (Hs : StronglySorted (fun p q => path_ltb q p = false) (find_html_files entries))
    by apply sorted_paths.
  split; [exact Hs|].
  intros Hnd. pose proof (find_html_files_NoDup entries Hnd) as Hnd'.
  split; [exact Hnd' | apply sorted_strict; assumption].
Qed.

Lemma sample_tree_NoDup : List.NoDup sample_tree.
Proof.
  apply NoDup_ListNoDup.
  apply (bool_decide_unpack (NoDup sample_tree)). vm_compute. exact I.
Qed.

Example find_html_files_sample :
  map path_str (find_html_files sample_tree)
  = map str ["/site/src/0_html/.html"; "/site/src/0_html/a/b/y.html";
             "/site/src/0_html/a/c.html"; "/site/src/0_html/a-b/z.html";
             "/site/src/0_html/a.html"; "/site/src/0_html/x.html";
             "/site/src/0_html/x.html/in.html"].
Proof. vm_compute. reflexivity. Qed.

Lemma find_html_files_sorted_witness :
  List.NoDup sample_tree
  /\ StronglySorted (fun p q => path_ltb p q = true) (find_html_files sample_tree).
Proof.
  split; [exact sample_tree_NoDup|].
  apply (proj2 (proj2 (find_html_files_sorted sample_tree)) sample_tree_NoDup).
Defined.

(** ** Paths as strings *)

Lemma class_run_unique (cls : ascii -> bool) (a : text) :
  forall b r r',
  Forall (fun c => cls c = true) a -> Forall (fun c => cls c = true) b ->
  heads cls r = false -> heads cls r' = false ->
  a ++ r = b ++ r' -> a = b /\ r = r'.
Proof.
  induction a as [|c a IH]; intros b r r' Ha Hb Hr Hr' E.
  - destruct b as [|c' b]; [auto|].
    cbn in E. subst r. inversion Hb; subst. cbn in Hr. congruence.
  - destruct b as [|c' b].
    + cbn in E. subst r'. inversion Ha; subst. cbn in Hr'. congruence.
    + cbn in E. injection E as -> E. inversion Ha; inversion Hb; subst.
      destruct (IH b r r') as [-> ->]; auto.
Qed.

Lemma proper_name_not_slash (name : text) :
  proper_name name -> Forall (fun c => not_slash c = true) name.
Proof.
  intros [_ Hno]. apply List.Forall_forall. intros c Hc.
  unfold not_slash. destruct (Ascii.eqb_spec c "/") as [->|]; [contradiction | reflexivity].
Qed.

Lemma joined_heads (p : fs_path) :
  heads not_slash (concat (map (fun name => "/"%char :: name) p)) = false.
Proof. destruct p; reflexivity. Qed.

Lemma joined_inj (p : fs_path) :
  forall q,
  Forall proper_name p -> Forall proper_name q ->
  concat (map (fun name => "/"%char :: name) p)
  = concat (map (fun name => "/"%char :: name) q) ->
  p = q.
Proof.
  induction p as [|n p IH]; intros [|m q] Hp Hq E; cbn in E;
    try discriminate; [reflexivity|].
  injection E as E. inversion Hp; inversion Hq; subst.
  apply class_run_unique with (cls := not_slash) in E as [-> E];
    try (apply proper_name_not_slash; assumption); try apply joined_heads.
  f_equal. apply IH; assumption.
Qed.

(** Distinct paths have distinct strings. *)
Lemma path_str_inj (p q : fs_path) :
  Forall proper_name p -> Forall proper_name q -> path_str p = path_str q -> p = q.
Proof.
  intros Hp Hq E.
  destruct p as [|n p], q as [|m q]; [reflexivity | | |].
  - exfalso. inversion Hq as [|? ? [Hne _] _]; subst. cbn in E.
    destruct m; [congruence | discriminate].
  - exfalso. inversion Hp as [|? ? [Hne _] _]; subst. cbn in E.
    destruct n; [congruence | discriminate].
  - apply joined_inj; assumption.
Qed.

Lemma path_str_NoDup (l : list fs_path) :
  Forall (Forall proper_name) l -> List.NoDup l -> List.NoDup (map path_str l).
Proof.
  induction l as [|p l IH]; intros Hprop Hnd; cbn; [constructor|].
  inversion Hprop as [|? ? Hp Hl]; inversion Hnd as [|? ? Hnin Hnd']; subst.
  constructor; [|apply IH; assumption].
  intros Hin. apply in_map_iff in Hin as (q & E & Hq). apply Hnin.
  rewrite List.Forall_forall in Hl.
  rewrite (path_str_inj p q Hp (Hl q Hq) (eq_sym E)). exact Hq.
Qed.

(** ** [main] on a disk, and the project root *)

(** X12. On a disk, [main] exits with status 0 exactly when [html_dir]
    exists and holds, at some depth, an entry whose name ends in [.html];
    it reads the entries that [find_html_files] returns, in that order.
    When the entries are distinct paths made of proper names, the files
    are distinct as strings too, and the writes of the run are those due
    to them, one by one. *)
Theorem main_on_disk (html_dir : path) (files : gmap path file)
    (tree : option (list fs_path)) :
  let r := main html_dir (world_on files tree) in
  (r.1.1 = 0 <-> exists entries p, tree = Some entries /\ In p entries /\ html_name p)
  /\ (forall entries, tree = Some entries ->
        reads (w_log r.2) = map path_str (find_html_files entries))
  /\ (forall entries, tree = Some entries ->
        Forall (Forall proper_name) entries -> List.NoDup entries ->
        List.NoDup (map path_str (find_html_files entries))
        /\ writes (w_log r.2)
           = flat_map (due_write (world_on files tree))
               (map path_str (find_html_files entries))).
Proof.
  cbv zeta. split; [|split].
  - unfold main, world_on. cbn [w_listing]. destruct tree as [entries|]; cbn [option_map].
    + destruct (find_html_files entries) as [|p l] eqn:Hfind; cbn [map].
      * cbn. split; [discriminate|]. intros (e & p & E & Hin & Hname).
        injection E as <-.
        pose proof (proj2 (find_html_files_In entries p) (conj Hin Hname)) as H.
        rewrite Hfind in H. destruct H.
      * destruct (fold_left main_step _ _). cbn. split; [|reflexivity].
        intros _.
        assert (H : In p (find_html_files entries)) by (rewrite Hfind; left; reflexivity).
        apply find_html_files_In in H as [Hin Hname]. eauto.
    + cbn. split; [discriminate|]. intros (e & p & E & _). discriminate.
  - intros entries ->. unfold main, world_on. cbn [w_listing option_map].
    destruct (map path_str (find_html_files entries)) as [|p l] eqn:Hl; [reflexivity|].
    destruct (main_loop_reads (p :: l) (Summary 0 0 ∅)
                (World files (Some (p :: l)) [])) as (ops & Hlog & Hr).
    destruct (fold_left main_step (p :: l) _) as [sm w']. cbn [snd w_log] in *.
    rewrite Hlog. exact Hr.
  - intros entries -> Hprop Hnd.
    assert (Hnd' : List.NoDup (map path_str (find_html_files entries))).
    { apply path_str_NoDup; [|apply find_html_files_NoDup; assumption].
      rewrite List.Forall_forall in *. intros p Hp.
      apply find_html_files_In in Hp as [Hp _]. apply Hprop, Hp. }
    split; [exact Hnd'|].
    unfold main, world_on. cbn [w_listing option_map].
    destruct (map path_str (find_html_files entries)) as [|p l] eqn:Hl; [reflexivity|].
    destruct (main_loop_writes (p :: l) (Summary 0 0 ∅)
                (World files (Some (p :: l)) []) Hnd') as (ops & Hlog & Hw & _).
    destruct (fold_left main_step (p :: l) _) as [sm w']. cbn [snd w_log] in *.
    rewrite Hlog. exact Hw.
Qed.

Lemma main_on_disk_witness :
  Forall (Forall proper_name) sample_tree
  /\ List.NoDup sample_tree
  /\ List.NoDup (map path_str (find_html_files sample_tree)).
Proof.
  assert (Hprop : Forall (Forall proper_name) sample_tree).
  { repeat (constructor; [repeat (constructor; [split; [discriminate | cbn; intuition discriminate]|]); constructor|]).
    constructor. }
  split; [exact Hprop|]. split; [exact sample_tree_NoDup|].
  apply (proj2 (proj2 (main_on_disk (str HTML_DIR) ∅ (Some sample_tree)))
           sample_tree eq_refl Hprop sample_tree_NoDup).
Defined.

Lemma parent_firstn (p : fs_path) (n : nat) :
  parent (firstn (length p - n) p) = firstn (length p - S n) p.
Proof.
  unfold parent. rewrite removelast_firstn_len, length_firstn, firstn_firstn.
  f_equal. lia.
Qed.

(** X13. When [git] gives no root, the project root is the path of the
    script without its last four names, or the root directory when the
    path is shorter.  For a script installed as
    [<root>/.claude/hooks/scripts/<name>] this is [<root>], so that both
    ways of finding the root lead to the same [html_dir],
    [<root>/src/0_html], and to the same run. *)
Theorem project_root_fallback :
  (forall script_file,
     project_root None script_file = firstn (length script_file - 4) script_file)
  /\ (forall script_file, length script_file <= 4 -> project_root None script_file = [])
  /\ (forall root name other_script,
        let script_file := root ++ map str [".claude"; "hooks"; "scripts"] ++ [name] in
        project_root None script_file = root
        /\ html_dir_of None script_file = html_dir_of (Some root) other_script
        /\ html_dir_of None script_file = root ++ [str "src"; str "0_html"]
        /\ forall w, run_script None script_file w
                     = run_script (Some root) other_script w).
Proof.
  assert (H : forall script_file,
            project_root None script_file = firstn (length script_file - 4) script_file).
  { intros p. unfold project_root.
    rewrite <- (firstn_all p) at 1. rewrite <- (Nat.sub_0_r (length p)) at 1.
    rewrite !parent_firstn. reflexivity. }
  split; [exact H|]. split.
  - intros p Hlen. rewrite H. replace (length p - 4) with 0 by lia. reflexivity.
  - intros root name other script_file.
    assert (Hroot : project_root None script_file = root).
    { rewrite H. subst script_file. rewrite !length_app. cbn [length map].
      replace (length root + (3 + 1) - 4) with (length root + 0) by lia.
      rewrite firstn_app_2. cbn. apply app_nil_r. }
    split; [exact Hroot|]. unfold run_script, html_dir_of. rewrite Hroot.
    split; [reflexivity|]. split; reflexivity.
Qed.

Lemma project_root_fallback_witness :
  length [str "x.py"] <= 4 /\ project_root None [str "x.py"] = [].
Proof.
  assert (H : length [str "x.py"] <= 4) by (cbn; lia).
  split; [exact H|]. apply (proj1 (proj2 project_root_fallback) [str "x.py"] H).
Defined.
